(** * rss-newsletter: the dedup-and-selection pipeline, the ledger and the
      HTML escaping, embedded from the TypeScript sources.

    Sources embedded here:
    - [src/types.ts]                 the records;
    - [src/feedFetcher.ts]           [fetchFeed], [fetchAllFeeds];
    - [src/database.ts]              the [DatabaseManager] methods;
    - [src/index.ts]                 [main], from the ledger clean-up on;
    - [src/newsletterGenerator.ts]   [escapeHtml], [generateItemHtml].

    Modelling conventions.
    - A JS [number] that the code uses as a count, a cap or a day count is
      an integer [Z]; [Array.prototype.slice] is written out with its
      treatment of a negative end index.
    - A [Date] is its time value in milliseconds, a [Z]; every [Date] is a
      valid one (the comparator of an invalid date is [NaN], for which the
      order produced by [Array.prototype.sort] is implementation-defined).
    - [Array.prototype.sort] is stable (ECMAScript 2019); among stable sorts
      the result is unique for a consistent comparator, and insertion sort
      is taken as its model.
    - [undefined] is [None]; the truthiness tests of the code ([a || b],
      [c ? x : y]) are written out on [option string].
    - An exception is a value of [Thrown]; code that may throw lives in
      [Exc], code that also writes to the database or the output directory
      in [Run]. *)

From stdpp Require Import base option list strings gmap sorting.
From Stdlib Require Import ZArith Ascii Lia DecimalString.

Local Open Scope Z_scope.

(* ===================================================================== *)
(** ** Exceptions and state *)

(** What a [throw] carries: an [Error] instance with its [message], or any
    other value. *)
Inductive Thrown : Type :=
| ErrorObj (message : string)
| NonError.

Definition Exc (A : Type) : Type := (Thrown + A)%type.

Definition throw {A} (e : Thrown) : Exc A := inl e.

#[global] Instance Exc_ret : MRet Exc := λ A x, inr x.
#[global] Instance Exc_bind : MBind Exc := λ A B f m,
  match m with
  | inl e => inl e
  | inr x => f x
  end.

(** [try { body } catch (e) { handler e }] *)
Definition try_catch {A} (body : Exc A) (handler : Thrown → Exc A) : Exc A :=
  match body with
  | inl e => handler e
  | inr x => inr x
  end.

(* ===================================================================== *)
(** ** Arrays *)

Module Array.
Section array.
Context {A : Type}.

(** [arr.slice(0, end)]: a negative [end] counts from the end of the
    array, and the result is clamped to the array. *)
Definition slice (arr : list A) (endIdx : Z) : list A :=
  let len := Z.of_nat (length arr) in
  let final := if endIdx <? 0 then Z.max (len + endIdx) 0 else Z.min endIdx len in
  take (Z.to_nat final) arr.

Variable compareFn : A → A → Z.

(** [x] goes in front of the first element it does not have to follow. *)
Fixpoint insert (x : A) (arr : list A) : list A :=
  match arr with
  | [] => [x]
  | y :: arr' =>
      if compareFn x y <=? 0 then x :: y :: arr' else y :: insert x arr'
  end.

(** [arr.sort(compareFn)] *)
Fixpoint sort (arr : list A) : list A :=
  match arr with
  | [] => []
  | x :: arr' => insert x (sort arr')
  end.
End array.
End Array.

(* ===================================================================== *)
(** ** types.ts *)

Record FeedConfig := {
  name : string;
  url : string;
  cfg_category : string;
  enabled : bool
}.

Record NewsletterConfig := {
  nl_title : string;
  nl_description : string;
  nl_author : string;
  maxItemsPerFeed : Z;
  maxTotalItems : Z;
  retentionDays : Z
}.

Record Config := {
  newsletter : NewsletterConfig;
  feeds : list FeedConfig;
  categories : list string
}.

Record FeedItem := {
  item_id : string;
  title : string;
  link : string;
  description : string;
  pubDate : Z;
  feedName : string;
  category : string;
  author : option string
}.

Record FetchResult := {
  r_feedName : string;
  success : bool;
  items : list FeedItem;
  r_error : option string
}.

Record GenerationStats := {
  totalFeeds : Z;
  successfulFeeds : Z;
  failedFeeds : Z;
  newItems : Z;
  duplicatesRemoved : Z;
  generatedAt : Z
}.

(** The comparator of both sorts of the program,
    [(a, b) => b.pubDate.getTime() - a.pubDate.getTime()]. *)
Definition byPubDateDesc (a b : FeedItem) : Z := pubDate b - pubDate a.

Abbreviation sortByDate := (Array.sort byPubDateDesc).
Abbreviation insertByDate := (Array.insert byPubDateDesc).

(** The order the sorts are meant to produce: [a] may stand before [b]. *)
Definition newerFirst (a b : FeedItem) : Prop := pubDate b ≤ pubDate a.


(** [arr.length] *)
Definition count {A} (l : list A) : Z := Z.of_nat (length l).

(* ===================================================================== *)
(** ** feedFetcher.ts *)

(** [Parser.Item] and the parsed feed, as far as [fetchFeed] reads them. *)
Record ParserItem := {
  p_guid : option string;
  p_link : option string;
  p_title : option string;
  p_pubDate : option string;
  p_contentSnippet : option string;
  p_content : option string;
  p_summary : option string;
  p_creator : option string;
  p_author : option string
}.

Record ParserOutput := {
  feed_items : list ParserItem;
  feed_title : option string
}.

(** A string is truthy when it is defined and not empty. *)
Definition truthy (o : option string) : option string :=
  match o with
  | Some s => if decide (s = EmptyString) then None else Some s
  | None => None
  end.

(** [a || b] *)
Definition or_else (a b : option string) : option string :=
  match truthy a with
  | Some s => Some s
  | None => b
  end.

(** What the fetcher takes from outside: the rss-parser library, the md5
    digest, the markup stripper (regular expressions, not embedded: no
    property below depends on the text it returns), the date parser and the
    clock. Each call that can throw returns in [Exc]. *)
Record FetcherEnv := {
  parseURL : string → Exc ParserOutput;
  md5 : string → Exc string;
  sanitizeHtml : option string → Exc string;
  parseDate : string → Z;
  fetch_now : Z
}.

Section fetcher.
Variable env : FetcherEnv.

Definition generateItemId (item : ParserItem) (feedName : string) : Exc string :=
  let fallback :=
    (feedName +:+ "-" +:+ default "undefined" (p_title item) +:+ "-"
       +:+ default "undefined" (p_pubDate item))%string in
  md5 env (default fallback (or_else (p_guid item) (or_else (p_link item) None))).

(** One turn of the loop over [feed.items]: [None] is [continue]. *)
Definition convertItem (cfg : FeedConfig) (feed : ParserOutput) (item : ParserItem)
    : Exc (option FeedItem) :=
  match truthy (p_link item) with
  | None => mret None
  | Some l =>
      i ← generateItemId item (name cfg);
      d ← sanitizeHtml env
            (or_else (p_contentSnippet item) (or_else (p_content item) (p_summary item)));
      mret (Some {|
        item_id := i;
        title := default "Untitled"%string (truthy (p_title item));
        link := l;
        description := d;
        pubDate := match truthy (p_pubDate item) with
                   | Some s => parseDate env s
                   | None => fetch_now env
                   end;
        feedName := name cfg;
        category := cfg_category cfg;
        author := or_else (p_creator item) (or_else (p_author item) (feed_title feed))
      |})
  end.

Fixpoint convertItems (cfg : FeedConfig) (feed : ParserOutput) (l : list ParserItem)
    : Exc (list FeedItem) :=
  match l with
  | [] => mret []
  | item :: l' =>
      o ← convertItem cfg feed item;
      rest ← convertItems cfg feed l';
      mret (match o with Some fi => fi :: rest | None => rest end)
  end.

Definition errorMessage (e : Thrown) : string :=
  match e with
  | ErrorObj m => m
  | NonError => "Unknown error"
  end.

Definition fetchFeed (cfg : FeedConfig) : Exc FetchResult :=
  try_catch
    (feed ← parseURL env (url cfg);
     its ← convertItems cfg feed (feed_items feed);
     mret {| r_feedName := name cfg; success := true; items := its; r_error := None |})
    (λ e,
     mret {| r_feedName := name cfg; success := false; items := [];
             r_error := Some (errorMessage e) |}).

(** The items one result adds to [allItems]. *)
Definition contribution (result : FetchResult) (maxItemsPerFeed : Z) : list FeedItem :=
  if success result
  then Array.slice (sortByDate (items result)) maxItemsPerFeed
  else [].

(** [sort] works in place, so the [items] of a successful result are left
    sorted in [results]. *)
Definition sortInPlace (result : FetchResult) : FetchResult :=
  if success result
  then {| r_feedName := r_feedName result; success := success result;
          items := sortByDate (items result); r_error := r_error result |}
  else result.

(** The loop of [fetchAllFeeds] over the enabled feeds. *)
Fixpoint fetchLoop (enabledFeeds : list FeedConfig) (maxItemsPerFeed : Z)
    : Exc (list FetchResult * list FeedItem) :=
  match enabledFeeds with
  | [] => mret ([], [])
  | feed :: rest =>
      result ← fetchFeed feed;
      '(results, allItems) ← fetchLoop rest maxItemsPerFeed;
      mret (sortInPlace result :: results,
            contribution result maxItemsPerFeed ++ allItems)
  end.

Definition fetchAllFeeds (feeds : list FeedConfig) (maxItemsPerFeed : Z)
    : Exc (list FetchResult * list FeedItem) :=
  fetchLoop (filter (λ f, enabled f = true) feeds) maxItemsPerFeed.
End fetcher.

(* ===================================================================== *)
(** ** database.ts *)

(** The three tables. [processed_at], [fetch_date] and [generated_at] hold
    [toISOString()] texts in the database; the texts of two dates of years
    0 to 9999 compare as the dates do, and the rows carry the time value. *)
Record ProcessedRow := {
  row_url : string;
  row_feed_name : string;
  processed_at : Z;
  row_title : option string
}.

Record FeedStatsRow := {
  fs_feed_name : string;
  fetch_date : Z;
  items_fetched : Z;
  items_new : Z;
  fs_success : Z;
  error_message : option string
}.

Record GenerationRow := {
  generated_at : Z;
  total_feeds : Z;
  successful_feeds : Z;
  failed_feeds : Z;
  new_items : Z;
  duplicates_removed : Z
}.

Record Database := {
  processed_items : list ProcessedRow;
  feed_stats : list FeedStatsRow;
  generation_history : list GenerationRow
}.

(** What [writeNewsletter] was called with; the files it writes are a
    function of these three arguments and of the clock. *)
Record Newsletter := {
  nl_items : list FeedItem;
  nl_stats : GenerationStats;
  nl_results : list FetchResult
}.

(** The state a run works on: the database file and the output directory. *)
Record World := {
  db : Database;
  output : list Newsletter
}.

Definition Run (A : Type) : Type := World → World * Exc A.

#[global] Instance Run_ret : MRet Run := λ A x w, (w, inr x).
#[global] Instance Run_bind : MBind Run := λ A B f m w,
  match m w with
  | (w', inl e) => (w', inl e)
  | (w', inr x) => f x w'
  end.

Definition lift {A} (m : Exc A) : Run A := λ w, (w, m).

(** The writes of a run that the outside can make fail. *)
Inductive Effect : Type :=
| DeleteOld
| InsertProcessed (url : string)
| InsertFeedStats (feedName : string)
| InsertGeneration
| WriteNewsletter.

Record RunEnv := {
  fetcher : FetcherEnv;
  (** [Some msg]: the write throws an [Error] with [message = msg]. *)
  fault : Effect → option string
}.

(** The [{ url, feedName, title? }] argument of [markMultipleAsProcessed]. *)
Record ProcessedInput := {
  in_url : string;
  in_feedName : string;
  in_title : option string
}.

Definition msPerDay : Z := 86400000.

(** [INSERT OR IGNORE INTO processed_items]: [url] is the primary key, and
    a row whose key is taken is skipped. Returns the table and [changes]. *)
Definition insert_or_ignore (row : ProcessedRow) (t : list ProcessedRow)
    : list ProcessedRow * Z :=
  if decide (row_url row ∈ map row_url t) then (t, 0) else (t ++ [row], 1).

(** [DELETE FROM processed_items WHERE processed_at < ?] *)
Definition delete_older (cutoff : Z) (t : list ProcessedRow) : list ProcessedRow * Z :=
  let kept := filter (λ r, ¬ processed_at r < cutoff) t in
  (kept, Z.of_nat (length t) - Z.of_nat (length kept)).

Definition setProcessed (d : Database) (t : list ProcessedRow) : Database :=
  {| processed_items := t; feed_stats := feed_stats d;
     generation_history := generation_history d |}.

Definition on_processed (f : list ProcessedRow → list ProcessedRow * Z) (d : Database)
    : Database * Z :=
  let '(t, changes) := f (processed_items d) in (setProcessed d t, changes).

Definition addFeedStats (d : Database) (rows : list FeedStatsRow) : Database :=
  {| processed_items := processed_items d; feed_stats := feed_stats d ++ rows;
     generation_history := generation_history d |}.

Definition addGeneration (d : Database) (rows : list GenerationRow) : Database :=
  {| processed_items := processed_items d; feed_stats := feed_stats d;
     generation_history := generation_history d ++ rows |}.

(** The table after a run of [INSERT OR IGNORE] statements, one per row. *)
Definition insertAll (rows t : list ProcessedRow) : list ProcessedRow :=
  foldl (λ t row, (insert_or_ignore row t).1) t rows.

(** The rows of the table with a given key. *)
Definition rowsOf (u : string) (t : list ProcessedRow) : list ProcessedRow :=
  filter (λ r, row_url r = u) t.

Definition processedUrlsOf (d : Database) : gset string :=
  list_to_set (map row_url (processed_items d)).

Section run.
Variable env : RunEnv.

(** [new Date()]: one reading of the clock for the whole run. *)
Definition now : Z := fetch_now (fetcher env).

(** The values bound by the three [INSERT] statements. *)
Definition processedRow (item : ProcessedInput) : ProcessedRow :=
  {| row_url := in_url item; row_feed_name := in_feedName item;
     processed_at := now; row_title := truthy (in_title item) |}.

Definition feedStatsRow (feedName : string) (itemsFetched itemsNew : Z)
    (success : bool) (errorMessage : option string) : FeedStatsRow :=
  {| fs_feed_name := feedName; fetch_date := now;
     items_fetched := itemsFetched; items_new := itemsNew;
     fs_success := if success then 1 else 0;
     error_message := truthy errorMessage |}.

Definition generationRow (stats : GenerationStats) : GenerationRow :=
  {| generated_at := now; total_feeds := totalFeeds stats;
     successful_feeds := successfulFeeds stats;
     failed_feeds := failedFeeds stats;
     new_items := newItems stats;
     duplicates_removed := duplicatesRemoved stats |}.

(** [stmt.run(...)] of a prepared statement. *)
Definition stmt_run (eff : Effect) (f : Database → Database * Z) : Run Z := λ w,
  match fault env eff with
  | Some msg => (w, throw (ErrorObj msg))
  | None =>
      let '(d, changes) := f (db w) in
      ({| db := d; output := output w |}, inr changes)
  end.

(** [this.db.transaction(f)]: a throw inside rolls the database back. *)
Definition transaction {A} (f : Run A) : Run A := λ w,
  match f w with
  | (w', inl e) => ({| db := db w; output := output w' |}, inl e)
  | (w', inr x) => (w', inr x)
  end.

Fixpoint for_each {A} (l : list A) (body : A → Run unit) : Run unit :=
  match l with
  | [] => mret tt
  | x :: l' => body x ≫= λ _, for_each l' body
  end.

Definition markMultipleAsProcessed (items : list ProcessedInput) : Run unit :=
  transaction
    (for_each items (λ item,
       stmt_run (InsertProcessed (in_url item))
         (on_processed (insert_or_ignore (processedRow item)))
       ≫= λ _, mret tt)).

Definition getProcessedUrls : Run (gset string) := λ w,
  (w, inr (processedUrlsOf (db w))).

(** [setDate(getDate() - retentionDays)] moves the date by whole days; the
    process runs in a time zone without clock changes (UTC). *)
Definition cleanOldEntries (retentionDays : Z) : Run Z :=
  let cutoffDate := now - retentionDays * msPerDay in
  stmt_run DeleteOld (on_processed (delete_older cutoffDate)).

Definition recordFeedStats (feedName : string) (itemsFetched itemsNew : Z)
    (success : bool) (errorMessage : option string) : Run unit :=
  stmt_run (InsertFeedStats feedName) (λ d,
    (addFeedStats d
       [feedStatsRow feedName itemsFetched itemsNew success errorMessage], 1))
  ≫= λ _, mret tt.

Definition recordGeneration (stats : GenerationStats) : Run unit :=
  stmt_run InsertGeneration (λ d, (addGeneration d [generationRow stats], 1))
  ≫= λ _, mret tt.

(* =================================================================== *)
(** ** newsletterGenerator.ts: [writeNewsletter] *)

Definition writeNewsletter (items : list FeedItem) (stats : GenerationStats)
    (feedResults : list FetchResult) : Run unit := λ w,
  match fault env WriteNewsletter with
  | Some msg => (w, throw (ErrorObj msg))
  | None =>
      ({| db := db w;
          output := output w ++
            [{| nl_items := items; nl_stats := stats; nl_results := feedResults |}] |},
       inr tt)
  end.

(* =================================================================== *)
(** ** index.ts *)

(** [allItems.filter(item => !processedUrls.has(item.link))] *)
Definition dedup (processedUrls : gset string) (allItems : list FeedItem)
    : list FeedItem :=
  filter (λ item, link item ∉ processedUrls) allItems.

(** [newItems.sort(...).slice(0, config.newsletter.maxTotalItems)] *)
Definition sortAndLimit (newItems : list FeedItem) (maxTotalItems : Z)
    : list FeedItem :=
  Array.slice (sortByDate newItems) maxTotalItems.

(** The statistics object of [main], which it hands to the generator and,
    field by field, to [recordGeneration]. *)
Definition makeStats (results : list FetchResult) (allItems newItems sortedItems : list FeedItem)
    : GenerationStats :=
  {| totalFeeds := count results;
     successfulFeeds := count (filter (λ r, success r = true) results);
     failedFeeds := count (filter (λ r, success r ≠ true) results);
     newItems := count sortedItems;
     duplicatesRemoved := count allItems - count newItems;
     generatedAt := now |}.

Definition toProcessedInput (item : FeedItem) : ProcessedInput :=
  {| in_url := link item; in_feedName := feedName item; in_title := Some (title item) |}.

(** The body of the loop that records the feed statistics. *)
Definition recordStatsOf (newItems : list FeedItem) (result : FetchResult) : Run unit :=
  let newForFeed :=
    count (filter (λ i, feedName i = r_feedName result) (sortByDate newItems)) in
  recordFeedStats (r_feedName result) (count (items result)) newForFeed
    (success result) (r_error result).

(** The [try] block of [main], from [db.cleanOldEntries] on. The sort of
    [newItems] works in place, so the per-feed counts that follow it read
    the sorted array. *)
Definition main_try (config : Config) : Run unit :=
  _ ← cleanOldEntries (retentionDays (newsletter config));
  processedUrls ← getProcessedUrls;
  '(results, allItems) ←
    lift (fetchAllFeeds (fetcher env) (feeds config)
            (maxItemsPerFeed (newsletter config)));
  let newItems := dedup processedUrls allItems in
  let sortedItems := sortAndLimit newItems (maxTotalItems (newsletter config)) in
  let stats := makeStats results allItems newItems sortedItems in
  _ ← for_each results (recordStatsOf newItems);
  _ ← writeNewsletter sortedItems stats results;
  _ ← (if 0 <? count sortedItems
       then markMultipleAsProcessed (map toProcessedInput sortedItems)
       else mret tt);
  recordGeneration stats.

(** [main]: the [catch] logs the error and calls [process.exit(1)]; a run
    that leaves the [try] block normally ends with exit code 0. *)
Definition main (config : Config) (w : World) : World * Z :=
  match main_try config w with
  | (w', inr _) => (w', 0)
  | (w', inl _) => (w', 1)
  end.
End run.

(* ===================================================================== *)
(** ** The values a run computes

    The values that [main] binds on its way, as functions of what the run
    starts from. [fetchAllFeeds] never throws (see [fetchLoop_spec]); the
    default below is never taken. *)

Section run_values.
Variables (env : RunEnv) (config : Config) (w : World).

Definition run_cutoff : Z := now env - retentionDays (newsletter config) * msPerDay.

(** The seen table after the clean-up that opens the run. *)
Definition run_cleaned : list ProcessedRow :=
  (delete_older run_cutoff (processed_items (db w))).1.

Definition run_processedUrls : gset string :=
  processedUrlsOf (setProcessed (db w) run_cleaned).

Definition run_fetched : list FetchResult * list FeedItem :=
  match fetchAllFeeds (fetcher env) (feeds config)
          (maxItemsPerFeed (newsletter config)) with
  | inr p => p
  | inl _ => ([], [])
  end.

Definition run_results : list FetchResult := run_fetched.1.
Definition run_allItems : list FeedItem := run_fetched.2.

Definition run_newItems : list FeedItem := dedup run_processedUrls run_allItems.

Definition run_sortedItems : list FeedItem :=
  sortAndLimit run_newItems (maxTotalItems (newsletter config)).

Definition run_stats : GenerationStats :=
  makeStats env run_results run_allItems run_newItems run_sortedItems.

Definition run_feedStatsRows : list FeedStatsRow :=
  map (λ result,
         feedStatsRow env (r_feedName result) (count (items result))
           (count (filter (λ i, feedName i = r_feedName result)
                     (sortByDate run_newItems)))
           (success result) (r_error result))
      run_results.

Definition run_newsletter : Newsletter :=
  {| nl_items := run_sortedItems; nl_stats := run_stats; nl_results := run_results |}.

(** The world in which [recordGeneration] is called, when every write
    before it went through. *)
Definition run_beforeGeneration : World :=
  {| db := {| processed_items :=
                insertAll (map (λ item, processedRow env (toProcessedInput item))
                             run_sortedItems)
                          run_cleaned;
              feed_stats := feed_stats (db w) ++ run_feedStatsRows;
              generation_history := generation_history (db w) |};
     output := output w ++ [run_newsletter] |}.

(** The world a run without a failed write ends in. *)
Definition run_final : World :=
  {| db := addGeneration (db run_beforeGeneration) [generationRow env run_stats];
     output := output run_beforeGeneration |}.
End run_values.

(* ===================================================================== *)
(** ** newsletterGenerator.ts: escaping *)

(** [text.replace(/c/g, by)] for a pattern of one literal character. The
    five characters replaced are ASCII, so a replacement acts alike on the
    UTF-16 units of a JS string and on the bytes of its UTF-8 text. *)
Fixpoint replaceAll (c : ascii) (withText : string) (text : string) : string :=
  match text with
  | EmptyString => EmptyString
  | String a rest =>
      if decide (a = c)
      then withText +:+ replaceAll c withText rest
      else String a (replaceAll c withText rest)
  end.

Definition quot : ascii := "034"%char.
Definition apos : ascii := "039"%char.

Definition escapeHtml (text : string) : string :=
  replaceAll apos "&#039;"
    (replaceAll quot "&quot;"
       (replaceAll ">" "&gt;"
          (replaceAll "<" "&lt;"
             (replaceAll "&" "&amp;" text)))).

(** A template literal, cut at its substitutions: the text of the template,
    a substitution computed from a field of the item, a substitution
    computed from the clock. *)
Inductive Piece : Type :=
| Template (s : string)
| Field (s : string)
| Time (s : string).

Definition pieceText (p : Piece) : string :=
  match p with
  | Template s | Field s | Time s => s
  end.

Definition render (ps : list Piece) : string :=
  foldr (λ p acc, pieceText p +:+ acc) EmptyString ps.

Definition q : string := String quot EmptyString.

(** [generateItemHtml]; [iso] is [pubDate.toISOString()] and [timeAgo] is
    [this.getTimeAgo(pubDate)]. *)
Definition generateItemHtml (item : FeedItem) (iso timeAgo : string) : list Piece :=
  [ Template ("
      <article class=" +:+ q +:+ "news-item" +:+ q +:+ ">
        <h3><a href=" +:+ q);
    Field (escapeHtml (link item));
    Template (q +:+ " target=" +:+ q +:+ "_blank" +:+ q +:+ " rel=" +:+ q
              +:+ "noopener noreferrer" +:+ q +:+ ">");
    Field (escapeHtml (title item));
    Template ("</a></h3>
        <div class=" +:+ q +:+ "meta" +:+ q +:+ ">
          <span class=" +:+ q +:+ "source" +:+ q +:+ ">");
    Field (escapeHtml (feedName item));
    Template ("</span>
          <span class=" +:+ q +:+ "separator" +:+ q +:+ ">|</span>
          <span class=" +:+ q +:+ "time" +:+ q +:+ " title=" +:+ q);
    Time iso;
    Template (q +:+ ">");
    Time timeAgo;
    Template "</span>
          " ]
  ++ match truthy (author item) with
     | Some a =>
         [ Template ("<span class=" +:+ q +:+ "separator" +:+ q +:+ ">|</span><span class="
                     +:+ q +:+ "author" +:+ q +:+ ">");
           Field (escapeHtml a);
           Template "</span>" ]
     | None => []
     end
  ++ [ Template "
        </div>
        " ]
  ++ match truthy (Some (description item)) with
     | Some d =>
         [ Template ("<p class=" +:+ q +:+ "description" +:+ q +:+ ">");
           Field (escapeHtml d);
           Template "</p>" ]
     | None => []
     end
  ++ [ Template "
      </article>
    " ].

(** What the five replacements make of one character. *)
Definition escapeChar (a : ascii) : string :=
  if decide (a = "&"%char) then "&amp;"
  else if decide (a = "<"%char) then "&lt;"
  else if decide (a = ">"%char) then "&gt;"
  else if decide (a = quot) then "&quot;"
  else if decide (a = apos) then "&#039;"
  else String a EmptyString.

(** The five characters that [escapeHtml] replaces. *)
Definition specialChars : list ascii := [ "&"; "<"; ">"; quot; apos ]%char.

(** The characters of a string. *)
Fixpoint chars (s : string) : list ascii :=
  match s with
  | EmptyString => []
  | String a rest => a :: chars rest
  end.

(** The four characters that must not reach the HTML as they are. *)
Definition rawChars : list ascii := [ "<"; ">"; quot; apos ]%char.

Definition rawFree (s : string) : Prop := ∀ c, c ∈ rawChars → c ∉ chars s.


(* ===================================================================== *)
(** ** A small run to evaluate the program on

    Two feeds: A publishes on Monday, Tuesday and Wednesday, B on Sunday;
    a third feed times out. *)

Definition day (s : string) : Z :=
  if decide (s = "Sun") then 0
  else if decide (s = "Mon") then 1 * msPerDay
  else if decide (s = "Tue") then 2 * msPerDay
  else if decide (s = "Wed") then 3 * msPerDay
  else 4 * msPerDay.

Definition entry (l d : string) : ParserItem :=
  {| p_guid := None; p_link := Some l; p_title := Some d; p_pubDate := Some d;
     p_contentSnippet := None; p_content := None; p_summary := None;
     p_creator := None; p_author := None |}.

Definition demoFetcher : FetcherEnv :=
  {| parseURL := λ u,
       if decide (u = "https://a.example/rss")
       then inr {| feed_items := [entry "https://a.example/mon" "Mon";
                                  entry "https://a.example/tue" "Tue";
                                  entry "https://a.example/wed" "Wed"];
                   feed_title := Some "A" |}
       else if decide (u = "https://b.example/rss")
       then inr {| feed_items := [entry "https://b.example/sun" "Sun"];
                   feed_title := Some "B" |}
       else throw (ErrorObj "Request timed out after 30000ms");
     md5 := λ s, inr s;
     sanitizeHtml := λ o, inr (default EmptyString o);
     parseDate := day;
     fetch_now := 10 * msPerDay |}.

Definition feedA : FeedConfig :=
  {| name := "A"; url := "https://a.example/rss"; cfg_category := "News"; enabled := true |}.
Definition feedB : FeedConfig :=
  {| name := "B"; url := "https://b.example/rss"; cfg_category := "News"; enabled := true |}.
Definition feedC : FeedConfig :=
  {| name := "C"; url := "https://c.example/rss"; cfg_category := "News"; enabled := true |}.

Definition article (src l d : string) : FeedItem :=
  {| item_id := l; title := d; link := l; description := EmptyString; pubDate := day d;
     feedName := src; category := "News"; author := Some src |}.

Definition mon : FeedItem := article "A" "https://a.example/mon" "Mon".
Definition tue : FeedItem := article "A" "https://a.example/tue" "Tue".
Definition wed : FeedItem := article "A" "https://a.example/wed" "Wed".
Definition sun : FeedItem := article "B" "https://b.example/sun" "Sun".

Definition demoEnv : RunEnv := {| fetcher := demoFetcher; fault := λ _, None |}.

(** The same surroundings a day later. *)
Definition nextDayEnv : RunEnv :=
  {| fetcher := {| parseURL := parseURL demoFetcher; md5 := md5 demoFetcher;
                   sanitizeHtml := sanitizeHtml demoFetcher;
                   parseDate := parseDate demoFetcher;
                   fetch_now := 11 * msPerDay |};
     fault := λ _, None |}.

Definition emptyWorld : World :=
  {| db := {| processed_items := []; feed_stats := []; generation_history := [] |};
     output := [] |}.

Definition demoNewsletter (perFeed total : Z) : NewsletterConfig :=
  {| nl_title := "Daily Digest"; nl_description := "News"; nl_author := "Editor";
     maxItemsPerFeed := perFeed; maxTotalItems := total; retentionDays := 30 |}.

Definition demoConfig (perFeed total : Z) : Config :=
  {| newsletter := demoNewsletter perFeed total;
     feeds := [feedA; feedB; feedC];
     categories := ["News"] |}.

(** Surroundings in which the statistics tables refuse every write. *)
Definition statsFailEnv : RunEnv :=
  {| fetcher := demoFetcher;
     fault := λ eff,
       match eff with
       | InsertFeedStats _ | InsertGeneration => Some "database or disk is full"
       | _ => None
       end |}.

(** Surroundings in which only the generation history refuses the write. *)
Definition historyFailEnv : RunEnv :=
  {| fetcher := demoFetcher;
     fault := λ eff,
       match eff with
       | InsertGeneration => Some "database or disk is full"
       | _ => None
       end |}.

(** A seen table with rows of one, three and nine days of age. *)
Definition weekOld : list ProcessedRow :=
  [ {| row_url := "https://a.example/old"; row_feed_name := "A";
       processed_at := 1 * msPerDay; row_title := None |};
    {| row_url := "https://a.example/edge"; row_feed_name := "A";
       processed_at := 3 * msPerDay; row_title := None |};
    {| row_url := "https://a.example/new"; row_feed_name := "A";
       processed_at := 9 * msPerDay; row_title := None |} ].

(* ===================================================================== *)
(** ** database.ts: the single-row methods *)

(** [isProcessed]: [SELECT 1 FROM processed_items WHERE url = ?]; the
    result is [!!row]. *)
Definition isProcessed (url : string) : Run bool := λ w,
  (w, inr (bool_decide (url ∈ map row_url (processed_items (db w))))).

(** [getProcessedCount]: [SELECT COUNT( * ) FROM processed_items]. *)
Definition getProcessedCount : Run Z := λ w,
  (w, inr (count (processed_items (db w)))).

(** [markAsProcessed]: one [INSERT OR IGNORE], outside any transaction. *)
Definition markAsProcessed (env : RunEnv) (url feedName : string) (title : option string)
    : Run unit :=
  stmt_run env (InsertProcessed url)
    (on_processed (insert_or_ignore
       {| row_url := url; row_feed_name := feedName;
          processed_at := now env; row_title := truthy title |}))
  ≫= λ _, mret tt.

(** The writes of a run that can fail, as conditions on the surroundings:
    the statistics of every fetched feed, and the recording of every
    published item. *)
Definition statsOk (env : RunEnv) (config : Config) : Prop :=
  Forall (λ r, fault env (InsertFeedStats (r_feedName r)) = None)
    (run_results env config).

Definition marksOk (env : RunEnv) (config : Config) (w : World) : Prop :=
  Forall (λ item, fault env (InsertProcessed (link item)) = None)
    (run_sortedItems env config w).

(** The world after the clean-up and the feed statistics, and the world
    after the rendering that follows them. *)
Definition run_afterStats (env : RunEnv) (config : Config) (w : World) : World :=
  {| db := addFeedStats (setProcessed (db w) (run_cleaned env config w))
             (run_feedStatsRows env config w);
     output := output w |}.

Definition run_afterRender (env : RunEnv) (config : Config) (w : World) : World :=
  {| db := db (run_afterStats env config w);
     output := output w ++ [run_newsletter env config w] |}.

(* ===================================================================== *)
(** ** newsletterGenerator.ts: grouping and the age of an item *)

(** A [Map<string, FeedItem[]>]: the entries in the order of insertion. *)
Abbreviation CategoryMap := (list (string * list FeedItem)).

Fixpoint mapHas (key : string) (m : CategoryMap) : bool :=
  match m with
  | [] => false
  | (k, _) :: m' => if decide (k = key) then true else mapHas key m'
  end.

Fixpoint mapGet (key : string) (m : CategoryMap) : option (list FeedItem) :=
  match m with
  | [] => None
  | (k, v) :: m' => if decide (k = key) then Some v else mapGet key m'
  end.

(** [m.set(key, value)]: a key that is present keeps its place. *)
Fixpoint mapSet (key : string) (value : list FeedItem) (m : CategoryMap) : CategoryMap :=
  match m with
  | [] => [(key, value)]
  | (k, v) :: m' =>
      if decide (k = key) then (k, value) :: m' else (k, v) :: mapSet key value m'
  end.

(** [item.category || 'Uncategorized'] *)
Definition categoryOf (item : FeedItem) : string :=
  default "Uncategorized" (truthy (Some (category item))).

(** One turn of the loop of [groupByCategory]; the [push] on the array
    that the map holds is a [set] of the array with the item added. *)
Definition groupStep (grouped : CategoryMap) (item : FeedItem) : CategoryMap :=
  let category := categoryOf item in
  let grouped1 :=
    if mapHas category grouped then grouped else mapSet category [] grouped in
  mapSet category (default [] (mapGet category grouped1) ++ [item]) grouped1.

Definition groupByCategory (items : list FeedItem) : CategoryMap :=
  foldl groupStep [] items.

(** The sections that [generateHtml] renders: the groups, each sorted by
    date, in the order of the map. *)
Definition categorySections (items : list FeedItem) : CategoryMap :=
  map (λ '(c, categoryItems), (c, sortByDate categoryItems)) (groupByCategory items).

(** The template substitution of an integer number. *)
Definition showInt (n : Z) : string := NilZero.string_of_int (Z.to_int n).

(** [getTimeAgo]; [Math.floor] of a quotient of integers is the quotient
    rounded down, which the doubles compute exactly for dates less than
    two hundred thousand years apart. [toLocaleDateString] is the
    formatting of the platform. *)
Definition getTimeAgo (toLocaleDateString : Z → string) (now date : Z) : string :=
  let diffMs := now - date in
  let diffMins := diffMs / 60000 in
  let diffHours := diffMins / 60 in
  let diffDays := diffHours / 24 in
  if diffMins <? 60 then showInt diffMins +:+ "m ago"
  else if diffHours <? 24 then showInt diffHours +:+ "h ago"
  else if diffDays =? 1 then "Yesterday"
  else if diffDays <? 7 then showInt diffDays +:+ "d ago"
  else toLocaleDateString date.

(** The keys of a list in the order of their first occurrence. *)
Fixpoint firstOccurrences (keys : list string) : list string :=
  match keys with
  | [] => []
  | k :: keys' => k :: filter (λ k', k' ≠ k) (firstOccurrences keys')
  end.

(** The database accepts the row of an item. *)
Definition insertOk (env : RunEnv) (item : ProcessedInput) : Prop :=
  fault env (InsertProcessed (in_url item)) = None.

(** Surroundings in which the seen table refuses Tuesday's row. *)
Definition tuesdayFailEnv : RunEnv :=
  {| fetcher := demoFetcher;
     fault := λ eff,
       match eff with
       | InsertProcessed u =>
           if decide (u = "https://a.example/tue") then Some "disk I/O error" else None
       | _ => None
       end |}.


(* ===================================================================== *)
(** * Properties *)

(** ** The exception monad *)

Lemma Exc_bind_inr {A B} (f : A → Exc B) (m : Exc A) (y : B) :
  m ≫= f = inr y → ∃ x, m = inr x ∧ f x = inr y.
Proof. destruct m as [e|x]; [discriminate | eauto]. Qed.

Lemma try_catch_returns {A} (body : Exc A) (handler : Thrown → Exc A) :
  (∀ e, ∃ y, handler e = inr y) → ∃ y, try_catch body handler = inr y.
Proof. intros Hh. destruct body as [e|x]; simpl; eauto. Qed.

(** ** [slice] *)

Section slice_facts.
Context {A : Type}.
Implicit Types (arr : list A) (endIdx : Z).

Lemma slice_nonneg arr endIdx :
  0 ≤ endIdx → Array.slice arr endIdx = take (Z.to_nat endIdx) arr.
Proof.
  intros H. unfold Array.slice.
  destruct (Z.ltb_spec endIdx 0); [lia|].
  destruct (Z.le_gt_cases endIdx (Z.of_nat (length arr))).
  - by rewrite Z.min_l.
  - rewrite Z.min_r, Nat2Z.id by lia.
    rewrite !take_ge; [done | lia | lia].
Qed.

Lemma slice_neg arr endIdx :
  endIdx < 0 → Array.slice arr endIdx = take (length arr - Z.to_nat (- endIdx)) arr.
Proof.
  intros H. unfold Array.slice.
  destruct (Z.ltb_spec endIdx 0); [|lia]. f_equal. lia.
Qed.

Lemma slice_prefix arr endIdx : Array.slice arr endIdx `prefix_of` arr.
Proof. apply prefix_take. Qed.


Lemma slice_length arr endIdx :
  0 ≤ endIdx →
  Z.of_nat (length (Array.slice arr endIdx)) = Z.min endIdx (Z.of_nat (length arr)).
Proof. intros H. rewrite slice_nonneg, length_take by done. lia. Qed.

Lemma slice_zero arr : Array.slice arr 0 = [].
Proof. by rewrite slice_nonneg. Qed.

Lemma slice_all arr endIdx :
  Z.of_nat (length arr) ≤ endIdx → Array.slice arr endIdx = arr.
Proof.
  intros H. rewrite slice_nonneg by lia. apply take_ge. lia.
Qed.

End slice_facts.

(** ** [sort] with the comparator of the program *)

Section sort_facts.
Implicit Types (x y : FeedItem) (l : list FeedItem).

Lemma insert_perm x l : insertByDate x l ≡ₚ x :: l.
Proof.
  induction l as [|y l IH]; simpl; [done|].
  case_match; [done|]. rewrite IH. apply Permutation_swap.
Qed.

Lemma sort_perm l : sortByDate l ≡ₚ l.
Proof.
  induction l as [|x l IH]; simpl; [done|]. by rewrite insert_perm, IH.
Qed.

Lemma sort_length l : length (sortByDate l) = length l.
Proof. by rewrite sort_perm. Qed.

Lemma insert_sorted x l :
  StronglySorted newerFirst l → StronglySorted newerFirst (insertByDate x l).
Proof.
  induction 1 as [|y l Hl IH Hy]; simpl.
  { repeat constructor. }
  unfold byPubDateDesc at 1. destruct (Z.leb_spec (pubDate y - pubDate x) 0).
  - constructor; [by constructor|].
    constructor; [unfold newerFirst; lia|].
    eapply Forall_impl; [exact Hy|]. unfold newerFirst. intros; lia.
  - constructor; [done|].
    rewrite insert_perm. constructor; [unfold newerFirst; lia | done].
Qed.

Lemma sort_sorted l : StronglySorted newerFirst (sortByDate l).
Proof.
  induction l as [|x l IH]; simpl; [constructor | by apply insert_sorted].
Qed.



Lemma insert_front x l :
  Forall (newerFirst x) l → insertByDate x l = x :: l.
Proof.
  destruct 1 as [|y l Hy _]; simpl; [done|].
  unfold byPubDateDesc, newerFirst in *.
  destruct (Z.leb_spec (pubDate y - pubDate x) 0); [done | lia].
Qed.

Lemma sort_sorted_id l : StronglySorted newerFirst l → sortByDate l = l.
Proof.
  induction 1 as [|x l Hl IH Hx]; simpl; [done|].
  rewrite IH. by apply insert_front.
Qed.

Lemma sort_idemp l : sortByDate (sortByDate l) = sortByDate l.
Proof. apply sort_sorted_id, sort_sorted. Qed.
End sort_facts.

(** ** [fetchFeed] and [fetchAllFeeds] *)

Section fetcher_facts.
Variable env : FetcherEnv.

Lemma convertItem_feedName cfg feed item fi :
  convertItem env cfg feed item = inr (Some fi) → feedName fi = name cfg.
Proof.
  unfold convertItem. destruct (truthy (p_link item)); [|discriminate].
  intros H.
  apply Exc_bind_inr in H as (i & _ & H).
  apply Exc_bind_inr in H as (d & _ & H).
  by injection H as <-.
Qed.

Lemma convertItems_feedName cfg feed l its :
  convertItems env cfg feed l = inr its →
  Forall (λ fi, feedName fi = name cfg) its.
Proof.
  revert its. induction l as [|item l IH]; simpl; intros its H.
  { injection H as <-. constructor. }
  apply Exc_bind_inr in H as (o & Ho & H).
  apply Exc_bind_inr in H as (rest & Hrest & H).
  injection H as <-. specialize (IH _ Hrest).
  destruct o as [fi|]; [|done].
  constructor; [by eapply convertItem_feedName | done].
Qed.

(** The two ways out of [fetchFeed]. *)
Lemma fetchFeed_cases cfg :
  (∃ feed its,
      parseURL env (url cfg) = inr feed ∧
      convertItems env cfg feed (feed_items feed) = inr its ∧
      fetchFeed env cfg =
        inr {| r_feedName := name cfg; success := true; items := its;
               r_error := None |}) ∨
  (∃ e,
      (parseURL env (url cfg) = inl e ∨
       ∃ feed, parseURL env (url cfg) = inr feed ∧
               convertItems env cfg feed (feed_items feed) = inl e) ∧
      fetchFeed env cfg =
        inr {| r_feedName := name cfg; success := false; items := [];
               r_error := Some (errorMessage e) |}).
Proof.
  unfold fetchFeed.
  destruct (parseURL env (url cfg)) as [e|feed] eqn:Hp; simpl.
  { right. exists e. eauto. }
  destruct (convertItems env cfg feed (feed_items feed)) as [e|its] eqn:Hc; simpl.
  - right. exists e. split; [right; eauto | done].
  - left. exists feed, its. eauto.
Qed.

Lemma fetchFeed_returns cfg : ∃ r, fetchFeed env cfg = inr r.
Proof.
  destruct (fetchFeed_cases cfg) as [(? & ? & _ & _ & ->)|(? & _ & ->)]; eauto.
Qed.

Lemma fetchFeed_shape cfg r :
  fetchFeed env cfg = inr r →
  r_feedName r = name cfg ∧
  Forall (λ fi, feedName fi = name cfg) (items r) ∧
  (success r = false → items r = []).
Proof.
  intros H.
  destruct (fetchFeed_cases cfg) as [(feed & its & _ & Hc & H')|(e & _ & H')];
    rewrite H' in H; injection H as <-; simpl.
  - split_and!; [done | by eapply convertItems_feedName | done].
  - split_and!; [done | constructor | done].
Qed.

Lemma contribution_eq cfg r k :
  fetchFeed env cfg = inr r →
  contribution r k = Array.slice (sortByDate (items r)) k.
Proof.
  intros H. unfold contribution. destruct (success r) eqn:Hs; [done|].
  apply fetchFeed_shape in H as (_ & _ & ->); [|done].
  simpl. unfold Array.slice. by rewrite take_nil.
Qed.

Lemma fetchLoop_spec fs k :
  ∃ rs, Forall2 (λ cfg r, fetchFeed env cfg = inr r) fs rs ∧
        fetchLoop env fs k =
          inr (map sortInPlace rs, concat (map (λ r, contribution r k) rs)).
Proof.
  induction fs as [|cfg fs (rs & Hrs & IH)]; simpl.
  { exists []. split; [constructor | done]. }
  destruct (fetchFeed_returns cfg) as [r Hr].
  exists (r :: rs). split; [by constructor|].
  rewrite Hr. simpl. rewrite IH. done.
Qed.
End fetcher_facts.

(** The scenario of the specification: with a per-feed cap of 2, A gives
    Wednesday and Tuesday, B gives Sunday, and the feed that times out
    gives a failed result. *)
Example fetchAllFeeds_scenario :
  fetchAllFeeds demoFetcher [feedA; feedB; feedC] 2 =
    inr ([ {| r_feedName := "A"; success := true; items := [wed; tue; mon];
              r_error := None |};
           {| r_feedName := "B"; success := true; items := [sun]; r_error := None |};
           {| r_feedName := "C"; success := false; items := [];
              r_error := Some "Request timed out after 30000ms" |} ],
         [wed; tue; sun]).
Proof. reflexivity. Qed.

(** C9. Whatever the parser, the digest or the markup stripper do, and
    for every feed, [fetchFeed] returns a result and throws nothing. An
    exception raised by the fetch or while the items are converted gives a
    result with [success = false], no item, and the message of the
    exception as [error]; a fetch that goes through gives [success = true]
    and no [error]. So [error] is present exactly when the fetch failed. *)
Theorem fetchFeed_isolates_failure (env : FetcherEnv) (cfg : FeedConfig) :
  ∃ r, fetchFeed env cfg = inr r ∧
       r_feedName r = name cfg ∧
       (success r = false → items r = []) ∧
       (is_Some (r_error r) ↔ success r = false) ∧
       (∀ e, parseURL env (url cfg) = inl e →
             success r = false ∧ r_error r = Some (errorMessage e)) ∧
       (∀ feed e, parseURL env (url cfg) = inr feed →
                  convertItems env cfg feed (feed_items feed) = inl e →
                  success r = false ∧ r_error r = Some (errorMessage e)) ∧
       (∀ feed its, parseURL env (url cfg) = inr feed →
                    convertItems env cfg feed (feed_items feed) = inr its →
                    success r = true ∧ items r = its).
Proof.
  destruct (fetchFeed_cases env cfg)
    as [(feed & its & Hp & Hc & ->)|(e & He & ->)];
    eexists; (split; [reflexivity|]); simpl.
  - split; [done|]. split; [done|]. split.
    { split; [by intros [? ?] | done]. }
    split; [intros e He; congruence|].
    split; [intros feed' e Hp' Hc'; congruence|].
    intros feed' its' Hp' Hc'. split; [done | congruence].
  - split; [done|]. split; [done|]. split; [by split|].
    split.
    { intros e' He'. destruct He as [He|(feed & Hp & _)]; [|congruence].
      split; [done | congruence]. }
    split.
    { intros feed e' Hp Hc. destruct He as [He|(feed' & Hp' & Hc')]; [congruence|].
      split; [done | congruence]. }
    intros feed its Hp Hc. destruct He as [He|(feed' & Hp' & Hc')]; congruence.
Qed.

(** ** The per-feed cap *)


Lemma count_nonneg {A} (l : list A) : 0 ≤ count l.
Proof. unfold count. lia. Qed.

Lemma filter_none_of_name (n : string) (l : list FeedItem) (m : string) :
  Forall (λ i, feedName i = m) l → m ≠ n → filter (λ i, feedName i = n) l = [].
Proof.
  induction 1 as [|x l Hx _ IH]; intros Hne; [done|].
  rewrite filter_cons. destruct (decide (feedName x = n)); [congruence | auto].
Qed.




Section cap_facts.
Variable env : FetcherEnv.


Lemma fetched_names fs rs :
  Forall2 (λ cfg r, fetchFeed env cfg = inr r) fs rs →
  map r_feedName rs = map name fs.
Proof.
  induction 1 as [|cfg r fs rs Hr _ IH]; simpl; [done|].
  f_equal; [|done]. by apply (fetchFeed_shape env cfg r Hr).
Qed.
End cap_facts.



(** ** The ledger *)

Section ledger_facts.
Implicit Types (row r : ProcessedRow) (rows t : list ProcessedRow) (u : string).

Lemma insert_or_ignore_present row t :
  row_url row ∈ map row_url t → (insert_or_ignore row t).1 = t.
Proof. intros H. unfold insert_or_ignore. by rewrite decide_True. Qed.

Lemma insert_or_ignore_absent row t :
  row_url row ∉ map row_url t → (insert_or_ignore row t).1 = t ++ [row].
Proof. intros H. unfold insert_or_ignore. by rewrite decide_False. Qed.

Lemma insert_or_ignore_prefix row t : t `prefix_of` (insert_or_ignore row t).1.
Proof.
  unfold insert_or_ignore. case_decide; simpl; [done | by apply prefix_app_r].
Qed.

Lemma insert_or_ignore_NoDup row t :
  NoDup (map row_url t) → NoDup (map row_url (insert_or_ignore row t).1).
Proof.
  intros Hnd. unfold insert_or_ignore. case_decide; simpl; [done|].
  rewrite map_app. apply NoDup_app. split; [done|]. split.
  - intros x Hx Hx'. apply list_elem_of_singleton in Hx' as ->. done.
  - apply NoDup_singleton.
Qed.

Lemma insert_or_ignore_urls row t u :
  u ∈ map row_url (insert_or_ignore row t).1 ↔ u ∈ map row_url t ∨ u = row_url row.
Proof.
  unfold insert_or_ignore. case_decide; simpl.
  - split; [auto | intros [?| ->]; done].
  - rewrite map_app, elem_of_app. simpl. by rewrite list_elem_of_singleton.
Qed.

Lemma insertAll_cons row rows t :
  insertAll (row :: rows) t = insertAll rows (insert_or_ignore row t).1.
Proof. done. Qed.

Lemma insertAll_prefix rows t : t `prefix_of` insertAll rows t.
Proof.
  revert t. induction rows as [|row rows IH]; intros t; [done|].
  rewrite insertAll_cons. etrans; [apply insert_or_ignore_prefix | apply IH].
Qed.

Lemma insertAll_NoDup rows t :
  NoDup (map row_url t) → NoDup (map row_url (insertAll rows t)).
Proof.
  revert t. induction rows as [|row rows IH]; intros t Hnd; [done|].
  rewrite insertAll_cons. by apply IH, insert_or_ignore_NoDup.
Qed.

Lemma insertAll_urls rows t u :
  u ∈ map row_url (insertAll rows t) ↔ u ∈ map row_url t ∨ u ∈ map row_url rows.
Proof.
  revert t. induction rows as [|row rows IH]; intros t.
  { simpl. split; [auto | intros [?|H]; [done | by apply elem_of_nil in H]]. }
  rewrite insertAll_cons, IH, insert_or_ignore_urls. simpl.
  rewrite elem_of_cons. tauto.
Qed.

Lemma insertAll_noop rows t :
  (∀ row, row ∈ rows → row_url row ∈ map row_url t) → insertAll rows t = t.
Proof.
  induction rows as [|row rows IH]; intros H; [done|].
  rewrite insertAll_cons, insert_or_ignore_present by (apply H; left).
  apply IH. intros row' Hrow'. apply H. by right.
Qed.

(** Of the rows offered for a free key, the first one is stored. *)
Lemma insertAll_first rows t u row :
  u ∉ map row_url t → head (rowsOf u rows) = Some row → row ∈ insertAll rows t.
Proof.
  revert t. induction rows as [|row' rows IH]; intros t Hu Hhead; [done|].
  rewrite insertAll_cons. unfold rowsOf in Hhead. rewrite filter_cons in Hhead.
  destruct (decide (row_url row' = u)) as [Hrow|Hrow].
  - simpl in Hhead. injection Hhead as ->. subst u.
    eapply elem_of_prefix; [|apply insertAll_prefix].
    rewrite insert_or_ignore_absent by done. set_solver.
  - apply IH; [|done].
    rewrite insert_or_ignore_urls. intros [?|?]; congruence.
Qed.

Lemma rowsOf_absent u t : u ∉ map row_url t → rowsOf u t = [].
Proof.
  unfold rowsOf. induction t as [|r t IH]; intros Hu; [done|].
  simpl in Hu. apply not_elem_of_cons in Hu as [Hne Hu].
  rewrite filter_cons, decide_False by done. auto.
Qed.

(** A key of a table without duplicate keys has exactly one row. *)
Lemma rowsOf_unique u t :
  NoDup (map row_url t) → u ∈ map row_url t → ∃ r, rowsOf u t = [r].
Proof.
  unfold rowsOf. induction t as [|r t IH]; simpl; intros Hnd Hu.
  { by apply elem_of_nil in Hu. }
  apply NoDup_cons in Hnd as [Hr Hnd]. rewrite filter_cons.
  destruct (decide (row_url r = u)) as [<-|Hne].
  - exists r. f_equal. by apply rowsOf_absent.
  - apply elem_of_cons in Hu as [?|Hu]; [done|]. by apply IH.
Qed.
End ledger_facts.

(** ** Statements and transactions *)

Section run_facts.
Variable env : RunEnv.

Lemma stmt_run_ok eff f w :
  fault env eff = None →
  stmt_run env eff f w
  = ({| db := (f (db w)).1; output := output w |}, inr (f (db w)).2).
Proof. intros H. unfold stmt_run. rewrite H. by destruct (f (db w)). Qed.

Lemma stmt_run_fault eff f w msg :
  fault env eff = Some msg → stmt_run env eff f w = (w, inl (ErrorObj msg)).
Proof. intros H. unfold stmt_run. by rewrite H. Qed.

Lemma world_eta w : {| db := db w; output := output w |} = w.
Proof. by destruct w. Qed.

Lemma setProcessed_eta d : setProcessed d (processed_items d) = d.
Proof. by destruct d. Qed.

Lemma markMultipleAsProcessed_ok items w :
  (∀ u, fault env (InsertProcessed u) = None) →
  markMultipleAsProcessed env items w
  = ({| db := setProcessed (db w)
                (insertAll (map (processedRow env) items) (processed_items (db w)));
        output := output w |}, inr tt).
Proof.
  intros Hok. unfold markMultipleAsProcessed, transaction.
  match goal with |- context [for_each items ?b] => set (body := b) end.
  assert (for_each items body w
          = ({| db := setProcessed (db w)
                   (insertAll (map (processedRow env) items) (processed_items (db w)));
                output := output w |}, inr tt)) as ->; [|done].
  revert w. induction items as [|item items IH]; intros w; simpl.
  { by rewrite setProcessed_eta, world_eta. }
  unfold mbind at 1, Run_bind. unfold body at 1.
  unfold mbind at 1, Run_bind. rewrite stmt_run_ok by apply Hok.
  unfold mret, Run_ret. rewrite IH. simpl.
  unfold on_processed. by destruct (insert_or_ignore _ _).
Qed.
End run_facts.

Section ledger_run_facts.
Implicit Types (t : list ProcessedRow) (u : string).

Lemma rowsOf_app u t1 t2 : rowsOf u (t1 ++ t2) = rowsOf u t1 ++ rowsOf u t2.
Proof. apply filter_app. Qed.

Lemma rowsOf_elem u t r : r ∈ t → row_url r = u → r ∈ rowsOf u t.
Proof. intros. by apply list_elem_of_filter. Qed.

(** Rows that are in the table stay what they are when the table grows
    without duplicate keys. *)
Lemma rowsOf_prefix u t1 t2 :
  t1 `prefix_of` t2 → NoDup (map row_url t2) → u ∈ map row_url t1 →
  rowsOf u t2 = rowsOf u t1.
Proof.
  intros [ext ->] Hnd Hu. rewrite rowsOf_app.
  rewrite map_app in Hnd. apply NoDup_app in Hnd as (_ & Hdisj & _).
  rewrite (rowsOf_absent u ext); [by rewrite app_nil_r|].
  intros Hu'. by apply (Hdisj u).
Qed.

Lemma rowsOf_processedRow env u (items : list ProcessedInput) :
  rowsOf u (map (processedRow env) items)
  = map (processedRow env) (filter (λ i, in_url i = u) items).
Proof.
  unfold rowsOf. induction items as [|i items IH]; [done|].
  simpl. rewrite !filter_cons. simpl.
  destruct (decide (in_url i = u)); simpl; by rewrite IH.
Qed.
End ledger_run_facts.

(** C4. Two calls of [markMultipleAsProcessed], at two times, on a table
    without duplicate keys, when the database accepts the writes: both
    calls return normally; afterwards no two rows share a URL, and every
    URL offered in either call has exactly one row; the table only grows
    at its end, so a URL that had a row after the first call has the very
    same row after the second; a URL that was free before the first call
    holds the row built, with the time of the first call, from the first
    item that offered it; and a second call that offers only URLs already
    present changes nothing. The statistics tables and the output are
    not touched. *)
Theorem markMultipleAsProcessed_insert_or_ignore
    (env1 env2 : RunEnv) (w : World) (items1 items2 : list ProcessedInput) :
  (∀ u, fault env1 (InsertProcessed u) = None) →
  (∀ u, fault env2 (InsertProcessed u) = None) →
  NoDup (map row_url (processed_items (db w))) →
  ∃ w1 w2,
    markMultipleAsProcessed env1 items1 w = (w1, inr tt) ∧
    markMultipleAsProcessed env2 items2 w1 = (w2, inr tt) ∧
    let t0 := processed_items (db w) in
    let t1 := processed_items (db w1) in
    let t2 := processed_items (db w2) in
    NoDup (map row_url t2) ∧
    (∀ item, item ∈ items1 ++ items2 → ∃ r, rowsOf (in_url item) t2 = [r]) ∧
    t0 `prefix_of` t1 ∧ t1 `prefix_of` t2 ∧
    (∀ u, u ∈ map row_url t1 → rowsOf u t2 = rowsOf u t1) ∧
    (∀ item, head (filter (λ i, in_url i = in_url item) items1) = Some item →
             in_url item ∉ map row_url t0 →
             rowsOf (in_url item) t2 = [processedRow env1 item]) ∧
    ((∀ item, item ∈ items2 → in_url item ∈ map row_url t1) → t2 = t1) ∧
    feed_stats (db w2) = feed_stats (db w) ∧
    generation_history (db w2) = generation_history (db w) ∧
    output w2 = output w.
Proof.
  intros Hok1 Hok2 Hnd0.
  eexists _, _.
  split; [by apply markMultipleAsProcessed_ok|].
  split; [by apply markMultipleAsProcessed_ok|].
  simpl.
  set (t0 := processed_items (db w)).
  set (t1 := insertAll (map (processedRow env1) items1) t0).
  set (t2 := insertAll (map (processedRow env2) items2) t1).
  assert (NoDup (map row_url t1)) as Hnd1 by by apply insertAll_NoDup.
  assert (NoDup (map row_url t2)) as Hnd2 by by apply insertAll_NoDup.
  assert (t0 `prefix_of` t1) as H01 by apply insertAll_prefix.
  assert (t1 `prefix_of` t2) as H12 by apply insertAll_prefix.
  assert (∀ u, u ∈ map row_url t1 → rowsOf u t2 = rowsOf u t1) as Hkeep.
  { intros u Hu. by apply rowsOf_prefix. }
  split; [done|]. split.
  { intros item Hitem. apply rowsOf_unique; [done|].
    unfold t2, t1. rewrite !insertAll_urls.
    apply elem_of_app in Hitem as [Hitem|Hitem].
    - left. right.
      apply (list_elem_of_fmap_2 (λ i, row_url (processedRow env1 i))) in Hitem.
      by rewrite <- (map_map (processedRow env1) row_url) in Hitem.
    - right.
      apply (list_elem_of_fmap_2 (λ i, row_url (processedRow env2 i))) in Hitem.
      by rewrite <- (map_map (processedRow env2) row_url) in Hitem. }
  split; [done|]. split; [done|]. split; [done|]. split.
  { intros item Hhead Hfree.
    assert (processedRow env1 item ∈ t1) as Hin.
    { apply (insertAll_first _ _ (in_url item)); [done|].
      rewrite rowsOf_processedRow.
      destruct (filter _ items1); simpl in *; congruence. }
    assert (in_url item ∈ map row_url t1) as Hu.
    { by apply (list_elem_of_fmap_2 row_url) in Hin. }
    rewrite Hkeep by done.
    destruct (rowsOf_unique (in_url item) t1 Hnd1 Hu) as [r Hr].
    rewrite Hr. f_equal.
    pose proof (rowsOf_elem (in_url item) t1 _ Hin eq_refl) as Hin'.
    rewrite Hr in Hin'. by apply list_elem_of_singleton in Hin'. }
  split; [|done].
  intros Hpresent. apply insertAll_noop.
  intros row Hrow. apply list_elem_of_fmap in Hrow as (item & -> & Hitem).
  by apply Hpresent.
Qed.

Lemma markMultipleAsProcessed_insert_or_ignore_witness :
  ∃ w1 w2,
    markMultipleAsProcessed demoEnv
      [toProcessedInput wed; toProcessedInput tue] emptyWorld = (w1, inr tt) ∧
    markMultipleAsProcessed nextDayEnv
      [toProcessedInput tue; toProcessedInput sun] w1 = (w2, inr tt) ∧
    NoDup (map row_url (processed_items (db w2))).
Proof.
  destruct (markMultipleAsProcessed_insert_or_ignore demoEnv nextDayEnv emptyWorld
              [toProcessedInput wed; toProcessedInput tue]
              [toProcessedInput tue; toProcessedInput sun])
    as (w1 & w2 & H1 & H2 & Hnd & _).
  - reflexivity.
  - reflexivity.
  - constructor.
  - exists w1, w2. split; [exact H1|]. split; [exact H2 | exact Hnd].
Defined.

(** The same two calls, evaluated: Tuesday's row keeps the time of the
    first call. *)
Example markMultipleAsProcessed_twice :
  ∃ w1,
    markMultipleAsProcessed demoEnv
      [toProcessedInput wed; toProcessedInput tue] emptyWorld = (w1, inr tt) ∧
    (processed_items ∘ db ∘ fst)
      (markMultipleAsProcessed nextDayEnv
         [toProcessedInput tue; toProcessedInput sun] w1)
    = [ {| row_url := "https://a.example/wed"; row_feed_name := "A";
           processed_at := 10 * msPerDay; row_title := Some "Wed" |};
        {| row_url := "https://a.example/tue"; row_feed_name := "A";
           processed_at := 10 * msPerDay; row_title := Some "Tue" |};
        {| row_url := "https://b.example/sun"; row_feed_name := "B";
           processed_at := 11 * msPerDay; row_title := Some "Sun" |} ].
Proof. eexists. split; reflexivity. Qed.

(** ** Eviction *)

Lemma count_filter_split {A} (P : A → Prop) `{∀ x, Decision (P x)} (l : list A) :
  count l = count (filter P l) + count (filter (λ x, ¬ P x) l).
Proof.
  unfold count. induction l as [|x l IH]; [done|].
  rewrite !filter_cons. destruct (decide (P x)).
  - rewrite decide_False by tauto. simpl length. lia.
  - rewrite decide_True by done. simpl length. lia.
Qed.



(** ** The run *)

Section main_facts.
Variables (env : RunEnv) (config : Config).

Lemma fetchAllFeeds_run :
  fetchAllFeeds (fetcher env) (feeds config) (maxItemsPerFeed (newsletter config))
  = inr (run_results env config, run_allItems env config).
Proof.
  unfold run_results, run_allItems, run_fetched, fetchAllFeeds.
  destruct (fetchLoop_spec (fetcher env)
              (filter (λ f, enabled f = true) (feeds config))
              (maxItemsPerFeed (newsletter config))) as (rs & _ & ->).
  done.
Qed.

Lemma cleanOldEntries_ok d w :
  fault env DeleteOld = None →
  ∃ changes,
    cleanOldEntries env d w
    = ({| db := setProcessed (db w)
                  (delete_older (now env - d * msPerDay) (processed_items (db w))).1;
          output := output w |}, inr changes).
Proof.
  intros Hok. unfold cleanOldEntries. rewrite stmt_run_ok by done.
  unfold on_processed. destruct (delete_older _ _) as [t c]. simpl. eauto.
Qed.

Lemma recordFeedStats_ok n fetched new ok err w :
  fault env (InsertFeedStats n) = None →
  recordFeedStats env n fetched new ok err w
  = ({| db := addFeedStats (db w) [feedStatsRow env n fetched new ok err];
        output := output w |}, inr tt).
Proof.
  intros Hok. unfold recordFeedStats, mbind, Run_bind.
  by rewrite stmt_run_ok.
Qed.

Lemma recordFeedStats_fault n fetched new ok err w msg :
  fault env (InsertFeedStats n) = Some msg →
  recordFeedStats env n fetched new ok err w = (w, inl (ErrorObj msg)).
Proof.
  intros Hf. unfold recordFeedStats, mbind, Run_bind.
  by rewrite (stmt_run_fault env _ _ _ msg).
Qed.

Lemma recordGeneration_ok stats w :
  fault env InsertGeneration = None →
  recordGeneration env stats w
  = ({| db := addGeneration (db w) [generationRow env stats];
        output := output w |}, inr tt).
Proof.
  intros Hok. unfold recordGeneration, mbind, Run_bind.
  by rewrite stmt_run_ok.
Qed.

Lemma recordGeneration_fault stats w msg :
  fault env InsertGeneration = Some msg →
  recordGeneration env stats w = (w, inl (ErrorObj msg)).
Proof.
  intros Hf. unfold recordGeneration, mbind, Run_bind.
  by rewrite (stmt_run_fault env _ _ _ msg).
Qed.

Lemma addFeedStats_nil d : addFeedStats d [] = d.
Proof. destruct d. unfold addFeedStats. simpl. by rewrite app_nil_r. Qed.

Lemma addFeedStats_app d rows1 rows2 :
  addFeedStats (addFeedStats d rows1) rows2 = addFeedStats d (rows1 ++ rows2).
Proof. unfold addFeedStats. simpl. by rewrite <- app_assoc. Qed.

(** The loop over the results, when every write goes through. *)
Lemma record_all_stats_ok new results w :
  (∀ r, r ∈ results → fault env (InsertFeedStats (r_feedName r)) = None) →
  for_each results (recordStatsOf env new) w
  = ({| db := addFeedStats (db w)
                (map (λ result,
                        feedStatsRow env (r_feedName result) (count (items result))
                          (count (filter (λ i, feedName i = r_feedName result)
                                    (sortByDate new)))
                          (success result) (r_error result)) results);
        output := output w |}, inr tt).
Proof.
  revert w. induction results as [|r results IH]; intros w Hok; simpl.
  { by rewrite addFeedStats_nil, world_eta. }
  unfold mbind at 1, Run_bind. unfold recordStatsOf at 1.
  rewrite recordFeedStats_ok by (apply Hok; left).
  rewrite IH by (intros r' Hr'; apply Hok; by right).
  simpl. by rewrite addFeedStats_app.
Qed.

(** The loop over the results touches the statistics table only, and
    stops at the first write that fails. *)
Lemma record_all_stats_frame new results w w' res :
  for_each results (recordStatsOf env new) w = (w', res) →
  output w' = output w ∧
  processed_items (db w') = processed_items (db w) ∧
  generation_history (db w') = generation_history (db w) ∧
  (res = inr tt ↔
   ∀ r, r ∈ results → fault env (InsertFeedStats (r_feedName r)) = None).
Proof.
  revert w. induction results as [|r results IH]; intros w; simpl.
  { intros [= <- <-]. split_and!; try done.
    split; [|done]. intros _ r Hr. by apply elem_of_nil in Hr. }
  unfold mbind at 1, Run_bind. unfold recordStatsOf at 1.
  destruct (fault env (InsertFeedStats (r_feedName r))) as [msg|] eqn:Hf.
  - rewrite (recordFeedStats_fault _ _ _ _ _ _ msg) by done.
    intros [= <- <-]. split_and!; try done.
    split; [done|]. intros Hall. specialize (Hall r). rewrite Hf in Hall.
    assert (Some msg = None) by (apply Hall; left). done.
  - rewrite recordFeedStats_ok by done. intros Hrest.
    apply IH in Hrest as (Ho & Hp & Hg & Hres). simpl in *.
    split_and!; try done. rewrite Hres. split.
    + intros Hall r' Hr'. apply elem_of_cons in Hr' as [->|Hr']; auto.
    + intros Hall r' Hr'. apply Hall. by right.
Qed.
End main_facts.

Section main_run.
Variables (env : RunEnv) (config : Config) (w : World).

Lemma insertAll_nil t : insertAll [] t = t.
Proof. done. Qed.

(** When every write before it goes through, the run reaches
    [recordGeneration] in the world [run_beforeGeneration]. *)
Lemma main_try_reaches_generation :
  (∀ eff, eff ≠ InsertGeneration → fault env eff = None) →
  main_try env config w
  = recordGeneration env (run_stats env config w) (run_beforeGeneration env config w).
Proof.
  intros Hok. unfold main_try.
  unfold mbind at 1, Run_bind.
  destruct (cleanOldEntries_ok env (retentionDays (newsletter config)) w)
    as [changes ->]; [by apply Hok|].
  unfold mbind at 1, Run_bind, getProcessedUrls. cbn [db output].
  unfold mbind at 1, Run_bind, lift. rewrite fetchAllFeeds_run.
  fold (run_cutoff env config). fold (run_cleaned env config w).
  fold (run_processedUrls env config w).
  fold (run_newItems env config w). fold (run_sortedItems env config w).
  fold (run_stats env config w).
  unfold mbind at 1, Run_bind.
  rewrite record_all_stats_ok by (intros; by apply Hok).
  fold (run_feedStatsRows env config w).
  unfold mbind at 1, Run_bind, writeNewsletter.
  rewrite (Hok WriteNewsletter) by done. cbn [db output].
  fold (run_newsletter env config w).
  unfold mbind at 1, Run_bind.
  assert ((if 0 <? count (run_sortedItems env config w)
           then markMultipleAsProcessed env
                  (map toProcessedInput (run_sortedItems env config w))
           else mret ())
            {| db := addFeedStats (setProcessed (db w) (run_cleaned env config w))
                       (run_feedStatsRows env config w);
               output := output w ++ [run_newsletter env config w] |}
          = (run_beforeGeneration env config w, inr tt)) as ->; [|done].
  unfold run_beforeGeneration.
  destruct (run_sortedItems env config w) as [|i its] eqn:Hs.
  - done.
  - replace (0 <? count (i :: its)) with true by done.
    rewrite markMultipleAsProcessed_ok by (intros; by apply Hok).
    cbn [db output]. rewrite map_map. done.
Qed.

(** A run in which no write fails. *)
Lemma main_ok :
  (∀ eff, fault env eff = None) →
  main env config w = (run_final env config w, 0).
Proof.
  intros Hok. unfold main.
  rewrite main_try_reaches_generation by (intros; apply Hok).
  by rewrite recordGeneration_ok.
Qed.
End main_run.

(** The scenario of the specification, run from an empty database with
    caps 2 and 3: Wednesday, Tuesday and Sunday are published, recorded as
    seen, and counted. *)
Example main_scenario :
  main demoEnv (demoConfig 2 3) emptyWorld
  = ({| db := {|
          processed_items :=
            [ processedRow demoEnv (toProcessedInput wed);
              processedRow demoEnv (toProcessedInput tue);
              processedRow demoEnv (toProcessedInput sun) ];
          feed_stats :=
            [ feedStatsRow demoEnv "A" 3 2 true None;
              feedStatsRow demoEnv "B" 1 1 true None;
              feedStatsRow demoEnv "C" 0 0 false (Some "Request timed out after 30000ms") ];
          generation_history :=
            [ {| generated_at := 10 * msPerDay; total_feeds := 3; successful_feeds := 2;
                 failed_feeds := 1; new_items := 3; duplicates_removed := 0 |} ] |};
        output :=
          [ {| nl_items := [wed; tue; sun];
               nl_stats := {| totalFeeds := 3; successfulFeeds := 2; failedFeeds := 1;
                              newItems := 3; duplicatesRemoved := 0;
                              generatedAt := 10 * msPerDay |};
               nl_results := (run_results demoEnv (demoConfig 2 3)) |} ] |}, 0).
Proof. vm_compute. reflexivity. Qed.

(** ** What a run writes to the output directory *)

Section output_facts.
Variable env : RunEnv.

Lemma stmt_run_output eff f w w' res :
  stmt_run env eff f w = (w', res) → output w' = output w.
Proof.
  unfold stmt_run. destruct (fault env eff).
  - by intros [= <- _].
  - destruct (f (db w)). by intros [= <- _].
Qed.

Lemma for_each_output {A} (body : A → Run unit) (l : list A) :
  (∀ x w w' res, body x w = (w', res) → output w' = output w) →
  ∀ w w' res, for_each l body w = (w', res) → output w' = output w.
Proof.
  intros Hbody. induction l as [|x l IH]; intros w w' res; simpl.
  { by intros [= <- _]. }
  unfold mbind, Run_bind.
  destruct (body x w) as [w1 [e|[]]] eqn:Hx.
  - intros [= <- _]. by eapply Hbody.
  - intros Hrest. apply IH in Hrest. rewrite Hrest. by eapply Hbody.
Qed.

Lemma markMultipleAsProcessed_output items w w' res :
  markMultipleAsProcessed env items w = (w', res) → output w' = output w.
Proof.
  unfold markMultipleAsProcessed, transaction.
  match goal with |- context [for_each items ?b] => set (body := b) end.
  destruct (for_each items body w) as [w1 r] eqn:Hloop.
  assert (output w1 = output w) as Hout.
  { eapply (for_each_output body items); [|exact Hloop].
    intros x v v' r'. unfold body, mbind, Run_bind.
    destruct (stmt_run env _ _ v) as [v1 [e|c]] eqn:Hs;
      intros [= <- _]; by eapply stmt_run_output. }
  destruct r; intros [= <- _]; done.
Qed.

Lemma recordGeneration_output stats w w' res :
  recordGeneration env stats w = (w', res) → output w' = output w.
Proof.
  unfold recordGeneration, mbind, Run_bind.
  destruct (stmt_run env _ _ w) as [w1 [e|c]] eqn:Hs;
    intros [= <- _]; by eapply stmt_run_output.
Qed.

(** A run writes at most one newsletter, the one made of the values the
    run computed. *)
Lemma main_output config w :
  ∃ news, (news = [] ∨ news = [run_newsletter env config w]) ∧
          output (main env config w).1 = output w ++ news.
Proof.
  unfold main.
  destruct (fault env DeleteOld) as [msg|] eqn:Hclean.
  { exists []. split; [by left|]. unfold main_try, mbind, Run_bind.
    unfold cleanOldEntries. rewrite (stmt_run_fault env _ _ _ msg) by done.
    simpl. by rewrite app_nil_r. }
  unfold main_try. unfold mbind at 1, Run_bind.
  destruct (cleanOldEntries_ok env (retentionDays (newsletter config)) w Hclean)
    as [changes ->].
  unfold mbind at 1, Run_bind, getProcessedUrls. cbn [db output].
  unfold mbind at 1, Run_bind, lift. rewrite fetchAllFeeds_run.
  fold (run_cutoff env config). fold (run_cleaned env config w).
  fold (run_processedUrls env config w).
  fold (run_newItems env config w). fold (run_sortedItems env config w).
  fold (run_stats env config w).
  unfold mbind at 1, Run_bind.
  match goal with |- context [for_each ?l ?b ?v] =>
    destruct (for_each l b v) as [w2 r2] eqn:Hstats end.
  apply record_all_stats_frame in Hstats as (Hout2 & _). cbn [output] in Hout2.
  destruct r2 as [e|[]].
  { exists []. split; [by left|]. simpl. by rewrite app_nil_r. }
  unfold mbind at 1, Run_bind, writeNewsletter.
  destruct (fault env WriteNewsletter) as [msg|].
  { exists []. split; [by left|]. simpl. by rewrite app_nil_r. }
  fold (run_newsletter env config w).
  exists [run_newsletter env config w]. split; [by right|].
  unfold mbind at 1, Run_bind.
  match goal with |- context [(if ?c then ?a else ?b) ?v] =>
    destruct ((if c then a else b) v) as [w4 r4] eqn:Hmark end.
  assert (output w4 = output w ++ [run_newsletter env config w]) as Hout4.
  { rewrite <- Hout2. destruct (0 <? _).
    - by apply markMultipleAsProcessed_output in Hmark.
    - by injection Hmark as <- _. }
  destruct r4 as [e|[]]; [done|].
  destruct (recordGeneration env _ w4) as [w5 r5] eqn:Hgen.
  apply recordGeneration_output in Hgen. destruct r5; simpl; congruence.
Qed.
End output_facts.

(** ** The selection: order and total cap *)



Lemma sortAndLimit_count (newItems : list FeedItem) (cap : Z) :
  0 ≤ cap → count (sortAndLimit newItems cap) = Z.min cap (count newItems).
Proof.
  intros Hcap. unfold sortAndLimit, count. by rewrite slice_length, sort_length.
Qed.

Lemma sortAndLimit_all (newItems : list FeedItem) (cap : Z) :
  count newItems ≤ cap → sortAndLimit newItems cap = sortByDate newItems.
Proof.
  intros Hcap. unfold sortAndLimit. apply slice_all. by rewrite sort_length.
Qed.


(** C7, for a cap that is not negative. For every run and every total cap
    [maxTotalItems ≥ 0]: the selection of any list of new items has at most
    [maxTotalItems] items; whatever happens during the run, a newsletter it
    writes has at most [maxTotalItems] items; and with a cap of zero the
    selection is empty, and a run in which no write fails ends with exit
    code 0, having written a newsletter without items and recorded no URL
    as seen. *)
Theorem total_cap (env : RunEnv) (config : Config) (w : World) :
  0 ≤ maxTotalItems (newsletter config) →
  (∀ newItems, count (sortAndLimit newItems (maxTotalItems (newsletter config)))
               ≤ maxTotalItems (newsletter config)) ∧
  (∃ news,
     output (main env config w).1 = output w ++ news ∧
     Forall (λ nl, count (nl_items nl) ≤ maxTotalItems (newsletter config)) news) ∧
  (maxTotalItems (newsletter config) = 0 →
   run_sortedItems env config w = [] ∧
   ((∀ eff, fault env eff = None) →
    (main env config w).2 = 0 ∧
    output (main env config w).1 = output w ++ [run_newsletter env config w] ∧
    nl_items (run_newsletter env config w) = [] ∧
    processed_items (db (main env config w).1) = run_cleaned env config w)).
Proof.
  intros Hcap.
  assert (∀ newItems, count (sortAndLimit newItems (maxTotalItems (newsletter config)))
                      ≤ maxTotalItems (newsletter config)) as Hsel.
  { intros newItems. rewrite sortAndLimit_count by done. lia. }
  split; [exact Hsel|]. split.
  - destruct (main_output env config w) as (news & [->| ->] & Hout);
      eexists; (split; [exact Hout|]).
    + constructor.
    + constructor; [|constructor]. apply Hsel.
  - intros Hzero.
    assert (run_sortedItems env config w = []) as Hempty.
    { unfold run_sortedItems, sortAndLimit. rewrite Hzero. apply slice_zero. }
    split; [exact Hempty|]. intros Hok.
    rewrite main_ok by done. simpl.
    split; [done|]. split; [done|]. split; [done|].
    by rewrite Hempty.
Qed.

Lemma total_cap_witness :
  count (sortAndLimit [mon; tue; wed; sun] (maxTotalItems (newsletter (demoConfig 2 3))))
  ≤ 3.
Proof.
  destruct (total_cap demoEnv (demoConfig 2 3) emptyWorld) as (H & _).
  - simpl. lia.
  - apply H.
Defined.

(** With a total cap of -1, [slice] drops the last of three new items and
    keeps two, which is more than -1. *)
Lemma total_cap_negative :
  sortAndLimit [mon; tue; wed] (-1) = [wed; tue] ∧
  ¬ count (sortAndLimit [mon; tue; wed] (-1)) ≤ -1.
Proof. split; [reflexivity | vm_compute; intros H; apply H; reflexivity]. Qed.


(** ** Failed writes *)

Section fault_facts.
Variables (env : RunEnv) (config : Config) (w : World).

Lemma delete_older_subset cutoff t r :
  r ∈ (delete_older cutoff t).1 → r ∈ t.
Proof. unfold delete_older. simpl. rewrite list_elem_of_filter. tauto. Qed.

(** A run that ends with exit code 0 has seen no statistics write fail. *)
Lemma main_exit_zero_inv :
  (main env config w).2 = 0 →
  fault env InsertGeneration = None ∧
  ∀ r, r ∈ run_results env config →
       fault env (InsertFeedStats (r_feedName r)) = None.
Proof.
  unfold main.
  destruct (fault env DeleteOld) as [msg|] eqn:Hclean.
  { unfold main_try, mbind, Run_bind, cleanOldEntries.
    rewrite (stmt_run_fault env _ _ _ msg) by done. simpl. lia. }
  unfold main_try. unfold mbind at 1, Run_bind.
  destruct (cleanOldEntries_ok env (retentionDays (newsletter config)) w Hclean)
    as [changes ->].
  unfold mbind at 1, Run_bind, getProcessedUrls. cbn [db output].
  unfold mbind at 1, Run_bind, lift. rewrite fetchAllFeeds_run.
  unfold mbind at 1, Run_bind.
  match goal with |- context [for_each ?l ?b ?v] =>
    destruct (for_each l b v) as [w2 r2] eqn:Hstats end.
  apply record_all_stats_frame in Hstats as (_ & _ & _ & Hres).
  destruct r2 as [e|[]]; [simpl; lia|].
  unfold mbind at 1, Run_bind, writeNewsletter.
  destruct (fault env WriteNewsletter) as [msg|]; [simpl; lia|].
  unfold mbind at 1, Run_bind.
  match goal with |- context [(if ?c then ?a else ?b) ?v] =>
    destruct ((if c then a else b) v) as [w4 [e|[]]] end; [simpl; lia|].
  destruct (fault env InsertGeneration) as [msg|] eqn:Hgen.
  { rewrite (recordGeneration_fault env _ _ msg) by done. simpl. lia. }
  intros _. split; [done|]. by apply Hres.
Qed.

Lemma main_exit_cases : (main env config w).2 = 0 ∨ (main env config w).2 = 1.
Proof. unfold main. destruct (main_try env config w) as [w' [e|u]]; auto. Qed.

(** A failed write of a feed's statistics ends the run before anything
    is rendered or recorded. *)
Lemma main_feed_stats_fault r msg :
  r ∈ run_results env config →
  fault env (InsertFeedStats (r_feedName r)) = Some msg →
  output (main env config w).1 = output w ∧
  generation_history (db (main env config w).1) = generation_history (db w) ∧
  ∀ row, row ∈ processed_items (db (main env config w).1) →
         row ∈ processed_items (db w).
Proof.
  intros Hr Hf.
  destruct (main env config w) as [w' code] eqn:Hmain. simpl.
  revert Hmain. unfold main.
  destruct (fault env DeleteOld) as [msg'|] eqn:Hclean.
  { unfold main_try, mbind, Run_bind, cleanOldEntries.
    rewrite (stmt_run_fault env _ _ _ msg') by done. by intros [= <- _]. }
  unfold main_try. unfold mbind at 1, Run_bind.
  destruct (cleanOldEntries_ok env (retentionDays (newsletter config)) w Hclean)
    as [changes ->].
  unfold mbind at 1, Run_bind, getProcessedUrls. cbn [db output].
  unfold mbind at 1, Run_bind, lift. rewrite fetchAllFeeds_run.
  unfold mbind at 1, Run_bind.
  match goal with |- context [for_each ?l ?b ?v] =>
    destruct (for_each l b v) as [w2 r2] eqn:Hstats end.
  apply record_all_stats_frame in Hstats as (Hout & Hproc & Hgen & Hres).
  destruct r2 as [e|[]].
  - intros [= <- _]. simpl in *. split; [done|]. split; [done|].
    intros row. rewrite Hproc. apply delete_older_subset.
  - assert (Some msg = None) as Habs; [|done].
    rewrite <- Hf. by apply Hres.
Qed.
End fault_facts.

(** C3, as the code has it. A statistics write that raises is not caught
    where it is made: it reaches the [catch] of [main], and the run ends
    with exit code 1. When the write that fails is that of a feed's
    statistics, which come before the rendering, the run has written no
    newsletter, recorded no URL as seen, and added nothing to the
    generation history. When it is that of the generation history, the last
    step, and every other write went through, the run has written the
    newsletter and recorded its URLs, and still ends with exit code 1. *)
Theorem stats_write_failure_is_fatal (env : RunEnv) (config : Config) (w : World) :
  (∀ r msg,
     r ∈ run_results env config →
     fault env (InsertFeedStats (r_feedName r)) = Some msg →
     (main env config w).2 = 1 ∧
     output (main env config w).1 = output w ∧
     generation_history (db (main env config w).1) = generation_history (db w) ∧
     ∀ row, row ∈ processed_items (db (main env config w).1) →
            row ∈ processed_items (db w)) ∧
  (∀ msg,
     fault env InsertGeneration = Some msg →
     (main env config w).2 = 1 ∧
     ((∀ eff, eff ≠ InsertGeneration → fault env eff = None) →
      main env config w = (run_beforeGeneration env config w, 1))).
Proof.
  split.
  - intros r msg Hr Hf. split; [|by eapply main_feed_stats_fault].
    destruct (main_exit_cases env config w) as [Hzero|Hone]; [|done].
    apply main_exit_zero_inv in Hzero as [_ Hall].
    rewrite (Hall r Hr) in Hf. done.
  - intros msg Hf. split.
    + destruct (main_exit_cases env config w) as [Hzero|Hone]; [|done].
      apply main_exit_zero_inv in Hzero as [Hgen _]. congruence.
    + intros Hok. unfold main. rewrite main_try_reaches_generation by done.
      by rewrite (recordGeneration_fault env _ _ msg).
Qed.

Lemma stats_write_failure_is_fatal_witness :
  (main statsFailEnv (demoConfig 2 3) emptyWorld).2 = 1 ∧
  (main historyFailEnv (demoConfig 2 3) emptyWorld).2 = 1.
Proof.
  split.
  - destruct (stats_write_failure_is_fatal statsFailEnv (demoConfig 2 3) emptyWorld)
      as [H _].
    refine (proj1 (H (sortInPlace
                        {| r_feedName := "A"; success := true; items := [mon; tue; wed];
                           r_error := None |})
                     "database or disk is full" _ _)).
    + vm_compute. left.
    + reflexivity.
  - destruct (stats_write_failure_is_fatal historyFailEnv (demoConfig 2 3) emptyWorld)
      as [_ H].
    exact (proj1 (H "database or disk is full" eq_refl)).
Defined.

(** A run in which the statistics tables refuse the writes: exit code 1,
    nothing rendered, nothing recorded. *)
Lemma stats_write_failure_counterexample :
  main statsFailEnv (demoConfig 2 3) emptyWorld = (emptyWorld, 1).
Proof. vm_compute. reflexivity. Qed.

(** ** The reported count of new items *)

(** C1, as the code has it. In a run in which no write fails, the number
    that the statistics call [newItems], shown in the newsletter and stored
    as [new_items] in the generation history, is the length of the list
    that was published, after the cut to the total cap: for a cap that is
    not negative it is the smaller of the cap and the number of items that
    survived the dedup. The number of survivors before the cut enters the
    statistics only through [duplicatesRemoved]. *)
Theorem new_count_is_published_count (env : RunEnv) (config : Config) (w : World) :
  (∀ eff, fault env eff = None) →
  ∃ w',
    main env config w = (w', 0) ∧
    generation_history (db w')
    = generation_history (db w) ++ [generationRow env (run_stats env config w)] ∧
    output w' = output w ++ [run_newsletter env config w] ∧
    nl_items (run_newsletter env config w) = run_sortedItems env config w ∧
    newItems (nl_stats (run_newsletter env config w))
    = count (run_sortedItems env config w) ∧
    new_items (generationRow env (run_stats env config w))
    = count (run_sortedItems env config w) ∧
    (0 ≤ maxTotalItems (newsletter config) →
     count (run_sortedItems env config w)
     = Z.min (maxTotalItems (newsletter config)) (count (run_newItems env config w))) ∧
    duplicates_removed (generationRow env (run_stats env config w))
    = count (run_allItems env config) - count (run_newItems env config w).
Proof.
  intros Hok. exists (run_final env config w).
  split; [by apply main_ok|]. simpl.
  split; [done|]. split; [done|]. split; [done|]. split; [done|]. split; [done|].
  split; [|done].
  intros Hcap. by apply sortAndLimit_count.
Qed.

Lemma new_count_is_published_count_witness :
  ∃ w', main demoEnv (demoConfig 2 1) emptyWorld = (w', 0) ∧
        map new_items (generation_history (db w')) = [1].
Proof.
  destruct (new_count_is_published_count demoEnv (demoConfig 2 1) emptyWorld)
    as (w' & Hmain & Hgen & _).
  - reflexivity.
  - exists w'. split; [exact Hmain|]. rewrite Hgen. reflexivity.
Defined.

(** With a total cap of 1, three items survive the dedup and the run
    reports one new item, in the newsletter and in the history. *)
Lemma new_count_counterexample :
  count (run_newItems demoEnv (demoConfig 2 1) emptyWorld) = 3 ∧
  map new_items
    (generation_history (db (main demoEnv (demoConfig 2 1) emptyWorld).1)) = [1] ∧
  map (λ nl, newItems (nl_stats nl))
    (output (main demoEnv (demoConfig 2 1) emptyWorld).1) = [1].
Proof. vm_compute. split; [|split]; reflexivity. Qed.

(** ** A second run *)

Lemma urls_insertAll (rows t : list ProcessedRow) :
  list_to_set (map row_url (insertAll rows t))
  =@{gset string} list_to_set (map row_url t) ∪ list_to_set (map row_url rows).
Proof.
  apply set_eq. intros u.
  rewrite elem_of_union, !elem_of_list_to_set. apply insertAll_urls.
Qed.

Lemma processedUrlsOf_set (d : Database) (t : list ProcessedRow) :
  processedUrlsOf (setProcessed d t) = list_to_set (map row_url t).
Proof. done. Qed.

Lemma processedUrlsOf_insertAll (d : Database) (rows : list ProcessedRow) :
  processedUrlsOf (setProcessed d (insertAll rows (processed_items d)))
  = processedUrlsOf d ∪ list_to_set (map row_url rows).
Proof. rewrite processedUrlsOf_set. apply urls_insertAll. Qed.

Lemma dedup_union (seen : gset string) (urls : list string) (allItems : list FeedItem) :
  dedup (seen ∪ list_to_set urls) allItems
  = filter (λ item, link item ∉ urls) (dedup seen allItems).
Proof.
  unfold dedup. rewrite list_filter_filter. apply list_filter_iff.
  intros item. rewrite not_elem_of_union, elem_of_list_to_set. tauto.
Qed.

Lemma filter_none {A} (P : A → Prop) `{∀ x, Decision (P x)} (l : list A) :
  (∀ x, x ∈ l → ¬ P x) → filter P l = [].
Proof.
  induction l as [|x l IH]; intros Hno; [done|].
  rewrite filter_cons, decide_False by (apply Hno; left).
  apply IH. intros y Hy. apply Hno. by right.
Qed.

(** C2, as the code has it. Run the selection on [allItems] against the
    URLs of the database, record the published items with
    [markMultipleAsProcessed] (the database accepting the writes), and run
    the selection again on the same [allItems] against the URLs of the
    database as it is now: the new items of the second time are the new
    items of the first time whose URL was not published. So no item
    published the first time is new again, and when the total cap cut
    nothing the first time, nothing is new the second time. *)
Theorem second_run_new_items
    (env : RunEnv) (w : World) (allItems : list FeedItem) (totalCap : Z) :
  (∀ u, fault env (InsertProcessed u) = None) →
  let newItems := dedup (processedUrlsOf (db w)) allItems in
  let sortedItems := sortAndLimit newItems totalCap in
  ∃ w',
    markMultipleAsProcessed env (map toProcessedInput sortedItems) w = (w', inr tt) ∧
    dedup (processedUrlsOf (db w')) allItems
    = filter (λ item, link item ∉ map link sortedItems) newItems ∧
    (∀ item, item ∈ sortedItems → item ∉ dedup (processedUrlsOf (db w')) allItems) ∧
    (count newItems ≤ totalCap → dedup (processedUrlsOf (db w')) allItems = []).
Proof.
  intros Hok newItems sortedItems.
  eexists. split; [by apply markMultipleAsProcessed_ok|]. cbn [db].
  assert (dedup
            (processedUrlsOf
               (setProcessed (db w)
                  (insertAll (map (processedRow env) (map toProcessedInput sortedItems))
                     (processed_items (db w))))) allItems
          = filter (λ item, link item ∉ map link sortedItems) newItems) as Hsecond.
  { rewrite processedUrlsOf_insertAll, !map_map. simpl. apply dedup_union. }
  split; [exact Hsecond|]. rewrite Hsecond. split.
  - intros item Hitem Hin. apply list_elem_of_filter in Hin as [Hlink _].
    apply Hlink. by apply (list_elem_of_fmap_2 link).
  - intros Hcap. apply filter_none. intros item Hitem Hlink. apply Hlink.
    unfold sortedItems. rewrite sortAndLimit_all by done.
    apply (list_elem_of_fmap_2 link). by rewrite sort_perm.
Qed.

Lemma second_run_new_items_witness :
  ∃ w',
    markMultipleAsProcessed demoEnv
      (map toProcessedInput
         (sortAndLimit (dedup (processedUrlsOf (db emptyWorld)) [wed; tue; sun]) 3))
      emptyWorld = (w', inr tt) ∧
    dedup (processedUrlsOf (db w')) [wed; tue; sun] = [].
Proof.
  destruct (second_run_new_items demoEnv emptyWorld [wed; tue; sun] 3)
    as (w' & Hmark & _ & _ & Hnone).
  - reflexivity.
  - exists w'. split; [exact Hmark|]. apply Hnone. vm_compute. discriminate.
Defined.

(** With a total cap of 1, only Wednesday is published and recorded, and
    the second selection finds Tuesday and Sunday new. *)
Lemma second_run_counterexample :
  dedup
    (processedUrlsOf
       (db (markMultipleAsProcessed demoEnv
              (map toProcessedInput
                 (sortAndLimit (dedup (processedUrlsOf (db emptyWorld)) [wed; tue; sun]) 1))
              emptyWorld).1))
    [wed; tue; sun]
  = [tue; sun].
Proof. vm_compute. reflexivity. Qed.

(** ** Escaping *)

Section escape_facts.
Implicit Types (c d a : ascii) (s t rep : string).

Lemma append_cons a s t : String a s +:+ t = String a (s +:+ t).
Proof. done. Qed.

Lemma append_nil s : EmptyString +:+ s = s.
Proof. done. Qed.

Lemma append_assoc s t r : (s +:+ t) +:+ r = s +:+ (t +:+ r).
Proof. induction s as [|a s IH]; [done|]. by rewrite !append_cons, IH. Qed.

Lemma chars_app s t : chars (s +:+ t) = chars s ++ chars t.
Proof. induction s as [|a s IH]; [done|]. rewrite append_cons. simpl. by rewrite IH. Qed.

Lemma replaceAll_app c rep s t :
  replaceAll c rep (s +:+ t) = replaceAll c rep s +:+ replaceAll c rep t.
Proof.
  induction s as [|a s IH]; [done|]. rewrite append_cons. simpl.
  case_decide; by rewrite IH, ?append_assoc, ?append_cons.
Qed.

Lemma replaceAll_other c rep a s :
  a ≠ c → replaceAll c rep (String a s) = String a (replaceAll c rep s).
Proof. intros H. simpl. by rewrite decide_False. Qed.

(** After the replacement of [c], [c] occurs only if the text put in its
    place has it. *)
Lemma replaceAll_removes c rep s : c ∉ chars rep → c ∉ chars (replaceAll c rep s).
Proof.
  intros Hrep. induction s as [|a s IH]; simpl; [apply not_elem_of_nil|].
  case_decide.
  - rewrite chars_app, elem_of_app. tauto.
  - simpl. rewrite elem_of_cons. intros [?|?]; [congruence | done].
Qed.

(** A replacement brings in no character that neither the text nor the
    replacing text has. *)
Lemma replaceAll_keeps_free c rep s d :
  d ∉ chars s → d ∉ chars rep → d ∉ chars (replaceAll c rep s).
Proof.
  intros Hs Hrep. induction s as [|a s IH]; simpl; [apply not_elem_of_nil|].
  simpl in Hs. apply not_elem_of_cons in Hs as [Hne Hs]. case_decide.
  - rewrite chars_app, elem_of_app. intros [?|?]; [done | by apply IH].
  - simpl. rewrite elem_of_cons. intros [?|?]; [done | by apply IH].
Qed.

Lemma escapeHtml_app s t : escapeHtml (s +:+ t) = escapeHtml s +:+ escapeHtml t.
Proof. unfold escapeHtml. by rewrite !replaceAll_app. Qed.

Lemma escapeHtml_char a : escapeHtml (String a EmptyString) = escapeChar a.
Proof.
  unfold escapeChar. repeat case_decide; subst; try reflexivity.
  unfold escapeHtml. by rewrite !replaceAll_other.
Qed.

(** The five replacements amount to one pass that escapes each character
    on its own: [&] goes first, so the [&] of an entity is not escaped a
    second time. *)
Lemma escapeHtml_pointwise s :
  escapeHtml s = foldr (λ a acc, escapeChar a +:+ acc) EmptyString (chars s).
Proof.
  induction s as [|a s IH]; [done|].
  change (String a s) with (String a EmptyString +:+ s).
  rewrite escapeHtml_app, escapeHtml_char, IH. done.
Qed.

Lemma escapeHtml_rawFree s : rawFree (escapeHtml s).
Proof.
  intros d Hd. unfold escapeHtml, rawChars in *.
  assert (∀ rep, rep ∈ ["&gt;"; "&quot;"; "&#039;"; "&lt;"] → d ∉ chars rep) as Hrep.
  { intros rep Hrep.
    repeat (apply elem_of_cons in Hd as [->|Hd]);
      [..|by apply elem_of_nil in Hd];
      repeat (apply elem_of_cons in Hrep as [->|Hrep]);
      try (by apply elem_of_nil in Hrep);
      vm_compute; intros Hin;
      repeat (apply elem_of_cons in Hin as [Hin|Hin]; [discriminate|]);
      by apply elem_of_nil in Hin. }
  repeat (apply elem_of_cons in Hd as [->|Hd]); [..|by apply elem_of_nil in Hd].
  - do 3 (apply replaceAll_keeps_free; [|apply Hrep; set_solver]).
    apply replaceAll_removes, Hrep. set_solver.
  - do 2 (apply replaceAll_keeps_free; [|apply Hrep; set_solver]).
    apply replaceAll_removes, Hrep. set_solver.
  - apply replaceAll_keeps_free; [|apply Hrep; set_solver].
    apply replaceAll_removes, Hrep. set_solver.
  - apply replaceAll_removes, Hrep. set_solver.
Qed.
End escape_facts.

(** C10. For every text, [escapeHtml] returns a text in which none of
    [<], [>], the double quote and the apostrophe occurs; the five
    replacements amount to escaping each character on its own, the [&] of
    an entity that a later replacement brings in being left alone; and in
    the HTML of an item, every substitution computed from a field of the
    item (link, title, feed name, author, description) is free of the four
    characters. *)
Theorem escapeHtml_no_raw_chars :
  (∀ text, rawFree (escapeHtml text)) ∧
  (∀ text, escapeHtml text
           = foldr (λ a acc, escapeChar a +:+ acc) EmptyString (chars text)) ∧
  (∀ item iso timeAgo s,
     Field s ∈ generateItemHtml item iso timeAgo → rawFree s) ∧
  (∀ item iso timeAgo,
     Field (escapeHtml (link item)) ∈ generateItemHtml item iso timeAgo ∧
     Field (escapeHtml (title item)) ∈ generateItemHtml item iso timeAgo ∧
     Field (escapeHtml (feedName item)) ∈ generateItemHtml item iso timeAgo).
Proof.
  split; [apply escapeHtml_rawFree|]. split; [apply escapeHtml_pointwise|]. split.
  - intros item iso timeAgo s Hs. unfold generateItemHtml in Hs.
    repeat (apply elem_of_app in Hs as [Hs|Hs]);
      repeat match goal with
      | H : _ ∈ match ?o with Some _ => _ | None => _ end |- _ => destruct o
      end;
      repeat (apply elem_of_cons in Hs as [Hs|Hs];
              [try discriminate; injection Hs as ->; apply escapeHtml_rawFree|]);
      by apply elem_of_nil in Hs.
  - intros item iso timeAgo. unfold generateItemHtml.
    split_and!; apply elem_of_app; left; set_solver.
Qed.

Example escapeHtml_sample :
  escapeHtml ("<a href=" +:+ q +:+ "x?a=1&b=2" +:+ q +:+ ">it's</a>")
  = "&lt;a href=&quot;x?a=1&amp;b=2&quot;&gt;it&#039;s&lt;/a&gt;".
Proof. reflexivity. Qed.

(** The second scenario of the specification: Wednesday's URL is already
    recorded; Tuesday and Sunday are published, one duplicate is counted. *)
Example main_scenario_seen :
  let w := {| db := {| processed_items := [processedRow demoEnv (toProcessedInput wed)];
                       feed_stats := []; generation_history := [] |};
              output := [] |} in
  map nl_items (output (main demoEnv (demoConfig 2 3) w).1) = [[tue; sun]] ∧
  map (λ g, (new_items g, duplicates_removed g))
    (generation_history (db (main demoEnv (demoConfig 2 3) w).1)) = [(2, 1)].
Proof. vm_compute. split; reflexivity. Qed.

(** ** Two runs in a row *)

Lemma insertAll_elem (rows t : list ProcessedRow) (r : ProcessedRow) :
  r ∈ insertAll rows t → r ∈ t ∨ r ∈ rows.
Proof.
  revert t. induction rows as [|row rows IH]; intros t; [by left|].
  rewrite insertAll_cons. intros Hr. apply IH in Hr as [Hr|Hr]; [|right; by right].
  unfold insert_or_ignore in Hr. case_decide; simpl in Hr; [by left|].
  apply elem_of_app in Hr as [Hr|Hr]; [by left|].
  apply list_elem_of_singleton in Hr as ->. right. by left.
Qed.

Lemma filter_all {A} (P : A → Prop) `{∀ x, Decision (P x)} (l : list A) :
  (∀ x, x ∈ l → P x) → filter P l = l.
Proof.
  induction l as [|x l IH]; intros Hall; [done|].
  rewrite filter_cons, decide_True by (apply Hall; left).
  f_equal. apply IH. intros y Hy. apply Hall. by right.
Qed.


(** With a total cap of 1, the second run finds Tuesday and Sunday new and
    publishes Tuesday. *)
Example main_twice :
  let w1 := (main demoEnv (demoConfig 2 1) emptyWorld).1 in
  run_newItems demoEnv (demoConfig 2 1) w1 = [tue; sun] ∧
  map nl_items (output (main demoEnv (demoConfig 2 1) w1).1) = [[wed]; [tue]].
Proof. vm_compute. split; reflexivity. Qed.

(* ===================================================================== *)
(** * Further properties of the ledger *)

Example showInt_samples :
  showInt 0 = "0" ∧ showInt 59 = "59" ∧ showInt (-3) = "-3".
Proof. vm_compute. split_and!; reflexivity. Qed.

Lemma isProcessed_eq (url : string) (w : World) :
  isProcessed url w
  = (w, inr (bool_decide (url ∈ map row_url (processed_items (db w))))).
Proof. done. Qed.

(** X1. [markAsProcessed] followed by [isProcessed]: when the database accepts
    the write, the URL is processed afterwards, the answer for every other
    URL is what it was, a URL that was processed already leaves the world
    as it is, and a URL that was not gets one row at the end of the table,
    with the time of the call. *)
Theorem markAsProcessed_then_isProcessed
    (env : RunEnv) (url feedName : string) (title : option string) (w : World) :
  fault env (InsertProcessed url) = None →
  ∃ w',
    markAsProcessed env url feedName title w = (w', inr tt) ∧
    isProcessed url w' = (w', inr true) ∧
    (∀ u, u ≠ url → (isProcessed u w').2 = (isProcessed u w).2) ∧
    (isProcessed url w = (w, inr true) → w' = w) ∧
    (isProcessed url w = (w, inr false) →
     processed_items (db w')
     = processed_items (db w) ++
         [{| row_url := url; row_feed_name := feedName;
             processed_at := now env; row_title := truthy title |}]) ∧
    feed_stats (db w') = feed_stats (db w) ∧
    generation_history (db w') = generation_history (db w) ∧
    output w' = output w.
Proof.
  intros Hok. unfold markAsProcessed, mbind, Run_bind.
  rewrite stmt_run_ok by done. eexists. split; [reflexivity|].
  set (row := {| row_url := url; row_feed_name := feedName;
                 processed_at := now env; row_title := truthy title |}).
  unfold on_processed.
  destruct (insert_or_ignore row (processed_items (db w))) as [t c] eqn:Hins.
  assert (t = (insert_or_ignore row (processed_items (db w))).1) as Ht
    by by rewrite Hins.
  rewrite !isProcessed_eq. cbn [fst snd db output setProcessed processed_items
                               feed_stats generation_history].
  split.
  { f_equal. f_equal. apply bool_decide_eq_true. rewrite Ht.
    apply insert_or_ignore_urls. by right. }
  split.
  { intros u Hu. rewrite !isProcessed_eq. cbn [snd db processed_items setProcessed].
    f_equal. apply bool_decide_ext. rewrite Ht.
    rewrite insert_or_ignore_urls. simpl. split; [|by left].
    intros [?|?]; [done | congruence]. }
  split.
  { intros [= Hin]. apply bool_decide_eq_true in Hin.
    rewrite Ht, insert_or_ignore_present by done.
    by rewrite setProcessed_eta, world_eta. }
  split; [|done].
  intros [= Hin]. apply bool_decide_eq_false in Hin.
  by rewrite Ht, insert_or_ignore_absent.
Qed.

Lemma markAsProcessed_then_isProcessed_witness :
  ∃ w',
    markAsProcessed demoEnv "https://a.example/wed" "A" (Some "Wed") emptyWorld
    = (w', inr tt) ∧
    isProcessed "https://a.example/wed" w' = (w', inr true).
Proof.
  destruct (markAsProcessed_then_isProcessed demoEnv "https://a.example/wed" "A"
              (Some "Wed") emptyWorld) as (w' & Hmark & Hseen & _).
  - reflexivity.
  - exists w'. split; [exact Hmark | exact Hseen].
Defined.

(** X2. The three ways to look the ledger up agree: [isProcessed] answers by
    membership in the set that [getProcessedUrls] loads, and on a table
    without duplicate keys [getProcessedCount] is the size of that set. *)
Theorem ledger_lookups_agree (w : World) :
  NoDup (map row_url (processed_items (db w))) →
  ∃ urls,
    getProcessedUrls w = (w, inr urls) ∧
    getProcessedCount w = (w, inr (Z.of_nat (size urls))) ∧
    ∀ u, isProcessed u w = (w, inr (bool_decide (u ∈ urls))).
Proof.
  intros Hnd. exists (processedUrlsOf (db w)). split; [done|]. split.
  - unfold getProcessedCount, count, processedUrlsOf.
    rewrite size_list_to_set by done. by rewrite length_map.
  - intros u. rewrite isProcessed_eq. f_equal. f_equal.
    apply bool_decide_ext. unfold processedUrlsOf.
    by rewrite elem_of_list_to_set.
Qed.

Lemma ledger_lookups_agree_witness :
  ∃ urls,
    getProcessedUrls
      {| db := {| processed_items := weekOld; feed_stats := [];
                  generation_history := [] |}; output := [] |}
    = ({| db := {| processed_items := weekOld; feed_stats := [];
                   generation_history := [] |}; output := [] |}, inr urls) ∧
    size urls = 3%nat.
Proof.
  destruct (ledger_lookups_agree
              {| db := {| processed_items := weekOld; feed_stats := [];
                          generation_history := [] |}; output := [] |})
    as (urls & Hurls & Hcount & _).
  - apply (bool_decide_unpack (NoDup (map row_url weekOld))). vm_compute. exact I.
  - exists urls. split; [exact Hurls|].
    unfold getProcessedCount in Hcount. injection Hcount as Hcount.
    apply Nat2Z.inj. rewrite <- Hcount. reflexivity.
Defined.

(** ** Transactions *)

Section transaction_facts.
Variable env : RunEnv.

Lemma insertAll_app (rows1 rows2 t : list ProcessedRow) :
  insertAll (rows1 ++ rows2) t = insertAll rows2 (insertAll rows1 t).
Proof. apply foldl_app. Qed.

(** The loop inside the transaction: it stops at the first write that
    fails, and otherwise inserts every row. *)
Lemma insert_loop_cases (items : list ProcessedInput) (w w1 : World) res :
  for_each items (λ item,
    stmt_run env (InsertProcessed (in_url item))
      (on_processed (insert_or_ignore (processedRow env item)))
    ≫= λ _, mret tt) w = (w1, res) →
  output w1 = output w ∧
  (Forall (insertOk env) items →
   res = inr tt ∧
   db w1 = setProcessed (db w)
             (insertAll (map (processedRow env) items) (processed_items (db w)))) ∧
  (¬ Forall (insertOk env) items →
   ∃ item msg, item ∈ items ∧
               fault env (InsertProcessed (in_url item)) = Some msg ∧
               res = inl (ErrorObj msg)).
Proof.
  revert w. induction items as [|item items IH]; intros w; simpl.
  { intros [= <- <-]. split; [done|]. split.
    - intros _. split; [done|]. by rewrite setProcessed_eta.
    - intros Hno. destruct Hno. constructor. }
  unfold mbind at 1, Run_bind. unfold mbind at 1, Run_bind.
  destruct (fault env (InsertProcessed (in_url item))) as [msg|] eqn:Hf.
  - rewrite (stmt_run_fault env _ _ _ msg) by done. intros [= <- <-].
    split; [done|]. split.
    + intros Hall. apply Forall_cons in Hall as [Hitem _].
      unfold insertOk in Hitem. congruence.
    + intros _. exists item, msg. split; [by left | done].
  - rewrite stmt_run_ok by done. unfold mret at 1, Run_ret. intros Hrest.
    apply IH in Hrest as (Hout & Hyes & Hno). cbn [db output] in *.
    split; [done|]. split.
    + intros Hall. apply Forall_cons in Hall as [_ Hall].
      destruct (Hyes Hall) as [-> ->]. split; [done|].
      unfold on_processed. by destruct (insert_or_ignore _ _).
    + intros Hnot.
      destruct Hno as (item' & msg & Hin & Hf' & ->).
      { intros Hall. apply Hnot. by constructor. }
      exists item', msg. split; [by right | done].
Qed.

Lemma markMultipleAsProcessed_accepts (items : list ProcessedInput) (w : World) :
  Forall (insertOk env) items →
  markMultipleAsProcessed env items w
  = ({| db := setProcessed (db w)
                (insertAll (map (processedRow env) items) (processed_items (db w)));
        output := output w |}, inr tt).
Proof.
  intros Hall. unfold markMultipleAsProcessed, transaction.
  match goal with |- context [for_each items ?b w] =>
    destruct (for_each items b w) as [w1 res] eqn:Hloop end.
  apply insert_loop_cases in Hloop as (Hout & Hyes & _).
  destruct (Hyes Hall) as [-> Hdb].
  f_equal. destruct w1. simpl in *. by subst.
Qed.

Lemma markMultipleAsProcessed_refuses (items : list ProcessedInput) (w : World) :
  ¬ Forall (insertOk env) items →
  ∃ item msg,
    item ∈ items ∧
    fault env (InsertProcessed (in_url item)) = Some msg ∧
    markMultipleAsProcessed env items w = (w, inl (ErrorObj msg)).
Proof.
  intros Hnot. unfold markMultipleAsProcessed, transaction.
  match goal with |- context [for_each items ?b w] =>
    destruct (for_each items b w) as [w1 res] eqn:Hloop end.
  apply insert_loop_cases in Hloop as (Hout & _ & Hno).
  destruct (Hno Hnot) as (item & msg & Hin & Hf & ->).
  exists item, msg. split; [done|]. split; [done|].
  rewrite Hout. by rewrite world_eta.
Qed.
End transaction_facts.

(** X3. [markMultipleAsProcessed] is all or nothing. When the database accepts
    the write of every item, the call returns normally and the table is the
    old one with the rows inserted in order, present keys skipped. When it
    refuses the write of some item, the call throws the error of a refused
    write and the world is exactly what it was before the call: the rows
    inserted before the failure are rolled back. *)
Theorem markMultipleAsProcessed_atomic
    (env : RunEnv) (items : list ProcessedInput) (w : World) :
  (Forall (insertOk env) items →
   markMultipleAsProcessed env items w
   = ({| db := setProcessed (db w)
                 (insertAll (map (processedRow env) items) (processed_items (db w)));
         output := output w |}, inr tt)) ∧
  (¬ Forall (insertOk env) items →
   ∃ item msg,
     item ∈ items ∧
     fault env (InsertProcessed (in_url item)) = Some msg ∧
     markMultipleAsProcessed env items w = (w, inl (ErrorObj msg))).
Proof.
  split; [apply markMultipleAsProcessed_accepts | apply markMultipleAsProcessed_refuses].
Qed.

Lemma markMultipleAsProcessed_atomic_witness :
  ∃ msg,
    markMultipleAsProcessed tuesdayFailEnv
      [toProcessedInput wed; toProcessedInput tue; toProcessedInput sun] emptyWorld
    = (emptyWorld, inl (ErrorObj msg)).
Proof.
  destruct (markMultipleAsProcessed_atomic tuesdayFailEnv
              [toProcessedInput wed; toProcessedInput tue; toProcessedInput sun]
              emptyWorld) as [_ H].
  destruct H as (item & msg & _ & _ & H).
  - intros Hall. apply Forall_cons in Hall as [_ Hall].
    apply Forall_cons in Hall as [Htue _]. vm_compute in Htue. discriminate.
  - exists msg. exact H.
Defined.

(** X4. A batch may be split: when the database accepts the writes, recording
    [items1 ++ items2] in one call leaves the world that recording [items1]
    and then [items2], at the same time, leaves. *)
Theorem markMultipleAsProcessed_split
    (env : RunEnv) (items1 items2 : list ProcessedInput) (w : World) :
  Forall (insertOk env) (items1 ++ items2) →
  markMultipleAsProcessed env (items1 ++ items2) w
  = (markMultipleAsProcessed env items1 ≫= λ _, markMultipleAsProcessed env items2) w.
Proof.
  intros Hall. pose proof Hall as Hboth. apply Forall_app in Hboth as [H1 H2].
  unfold mbind, Run_bind.
  rewrite !markMultipleAsProcessed_accepts by done.
  cbn [db output setProcessed processed_items feed_stats generation_history].
  by rewrite map_app, insertAll_app.
Qed.

Lemma markMultipleAsProcessed_split_witness :
  markMultipleAsProcessed demoEnv
    ([toProcessedInput wed] ++ [toProcessedInput tue; toProcessedInput wed]) emptyWorld
  = (markMultipleAsProcessed demoEnv [toProcessedInput wed]
     ≫= λ _, markMultipleAsProcessed demoEnv
               [toProcessedInput tue; toProcessedInput wed]) emptyWorld.
Proof.
  apply (markMultipleAsProcessed_split demoEnv).
  apply (bool_decide_unpack
           (Forall (λ item, fault demoEnv (InsertProcessed (in_url item)) = None)
              ([toProcessedInput wed] ++ [toProcessedInput tue; toProcessedInput wed]))).
  vm_compute. exact I.
Defined.

(** ** Repeated clean-up *)




(* ===================================================================== *)
(** * Further properties of the run *)

(** ** Every way a run can end *)

Section run_cases.
Variables (env : RunEnv) (config : Config).

Lemma record_all_stats_rows new results w w' res :
  for_each results (recordStatsOf env new) w = (w', res) →
  ∃ rows,
    rows `prefix_of`
      map (λ result,
             feedStatsRow env (r_feedName result) (count (items result))
               (count (filter (λ i, feedName i = r_feedName result) (sortByDate new)))
               (success result) (r_error result)) results ∧
    w' = {| db := addFeedStats (db w) rows; output := output w |}.
Proof.
  revert w. induction results as [|r results IH]; intros w; simpl.
  { intros [= <- _]. exists []. split; [done|].
    by rewrite addFeedStats_nil, world_eta. }
  unfold mbind at 1, Run_bind. unfold recordStatsOf at 1.
  destruct (fault env (InsertFeedStats (r_feedName r))) as [msg|] eqn:Hf.
  - rewrite (recordFeedStats_fault _ _ _ _ _ _ _ msg) by done.
    intros [= <- _]. exists []. split; [apply prefix_nil|].
    by rewrite addFeedStats_nil, world_eta.
  - rewrite recordFeedStats_ok by done. intros Hrest.
    apply IH in Hrest as (rows & Hpre & ->). cbn [db output].
    eexists (_ :: rows). split; [by apply prefix_cons|].
    by rewrite addFeedStats_app.
Qed.

Lemma marksOk_insertOk w :
  marksOk env config w ↔
  Forall (insertOk env) (map toProcessedInput (run_sortedItems env config w)).
Proof. unfold marksOk. by rewrite Forall_map. Qed.

(** The steps of [main] in their order: the first write that fails ends
    the run with exit code 1, in the world the writes before it have
    made. *)
Lemma main_cases w :
  (∃ msg, fault env DeleteOld = Some msg ∧ main env config w = (w, 1)) ∨
  (fault env DeleteOld = None ∧
   ((¬ statsOk env config ∧
     ∃ rows, rows `prefix_of` run_feedStatsRows env config w ∧
             main env config w
             = ({| db := addFeedStats (setProcessed (db w) (run_cleaned env config w)) rows;
                   output := output w |}, 1)) ∨
    (statsOk env config ∧
     ((∃ msg, fault env WriteNewsletter = Some msg ∧
              main env config w = (run_afterStats env config w, 1)) ∨
      (fault env WriteNewsletter = None ∧
       ((¬ marksOk env config w ∧
         main env config w = (run_afterRender env config w, 1)) ∨
        (marksOk env config w ∧
         ((∃ msg, fault env InsertGeneration = Some msg ∧
                  main env config w = (run_beforeGeneration env config w, 1)) ∨
          (fault env InsertGeneration = None ∧
           main env config w = (run_final env config w, 0)))))))))).
Proof.
  destruct (main env config w) as [w' code] eqn:Hmain. revert Hmain. unfold main.
  destruct (fault env DeleteOld) as [msg|] eqn:Hclean.
  { unfold main_try, mbind, Run_bind, cleanOldEntries.
    rewrite (stmt_run_fault env _ _ _ msg) by done. intros [= <- <-].
    left. eauto. }
  unfold main_try. unfold mbind at 1, Run_bind.
  destruct (cleanOldEntries_ok env (retentionDays (newsletter config)) w Hclean)
    as [changes ->].
  unfold mbind at 1, Run_bind, getProcessedUrls. cbn [db output].
  unfold mbind at 1, Run_bind, lift. rewrite fetchAllFeeds_run.
  fold (run_cutoff env config). fold (run_cleaned env config w).
  fold (run_processedUrls env config w).
  fold (run_newItems env config w). fold (run_sortedItems env config w).
  fold (run_stats env config w).
  unfold mbind at 1, Run_bind.
  match goal with |- context [for_each ?l ?b ?v] =>
    destruct (for_each l b v) as [w2 r2] eqn:Hstats end.
  pose proof (record_all_stats_frame _ _ _ _ _ _ Hstats) as (_ & _ & _ & Hres).
  pose proof (record_all_stats_rows _ _ _ _ _ Hstats) as (rows & Hrows & Hw2).
  fold (run_feedStatsRows env config w) in Hrows. cbn [db output] in Hw2.
  destruct r2 as [e|[]].
  { intros [= <- <-]. right. split; [done|]. left. split.
    - unfold statsOk. rewrite Forall_forall. intros Hall.
      assert (@inl Thrown unit e = inr ()) by by apply Hres. done.
    - exists rows. split; [done|]. by rewrite Hw2. }
  assert (statsOk env config) as Hstatsok.
  { unfold statsOk. rewrite Forall_forall. by apply Hres. }
  assert (w2 = run_afterStats env config w) as ->.
  { rewrite record_all_stats_ok in Hstats by by apply Hres.
    by injection Hstats as <-. }
  clear Hstats Hres Hrows Hw2 rows.
  unfold mbind at 1, Run_bind, writeNewsletter.
  destruct (fault env WriteNewsletter) as [msg|] eqn:Hrender.
  { intros [= <- <-]. right. split; [done|]. right. split; [done|]. left. eauto. }
  fold (run_newsletter env config w).
  change {| db := db (run_afterStats env config w);
            output := output (run_afterStats env config w) ++ [run_newsletter env config w] |}
    with (run_afterRender env config w).
  unfold mbind at 1, Run_bind.
  destruct (decide (Forall (insertOk env)
                      (map toProcessedInput (run_sortedItems env config w))))
    as [Hmarks|Hmarks].
  - assert ((if 0 <? count (run_sortedItems env config w)
             then markMultipleAsProcessed env
                    (map toProcessedInput (run_sortedItems env config w))
             else mret ()) (run_afterRender env config w)
            = (run_beforeGeneration env config w, inr tt)) as ->.
    { unfold run_beforeGeneration, run_afterRender, run_afterStats.
      destruct (run_sortedItems env config w) as [|i its] eqn:Hs; [done|].
      replace (0 <? count (i :: its)) with true by done.
      rewrite markMultipleAsProcessed_accepts by done.
      cbn [db output]. by rewrite map_map. }
    apply marksOk_insertOk in Hmarks.
    destruct (fault env InsertGeneration) as [msg|] eqn:Hgen.
    + rewrite (recordGeneration_fault env _ _ msg) by done.
      intros [= <- <-]. right. split; [done|]. right. split; [done|].
      right. split; [done|]. right. split; [done|]. left. eauto.
    + rewrite recordGeneration_ok by done. intros [= <- <-].
      right. split; [done|]. right. split; [done|].
      right. split; [done|]. right. split; [done|]. by right.
  - assert (¬ marksOk env config w) as Hnot by by rewrite marksOk_insertOk.
    destruct (run_sortedItems env config w) as [|i its] eqn:Hs.
    { destruct Hmarks. constructor. }
    replace (0 <? count (i :: its)) with true by done.
    destruct (markMultipleAsProcessed_refuses env _ (run_afterRender env config w) Hmarks)
      as (item & msg & _ & _ & ->).
    intros [= <- <-]. right. split; [done|]. right. split; [done|].
    right. split; [done|]. by left.
Qed.
End run_cases.


Example main_exit_code_failed_feed :
  (main demoEnv (demoConfig 2 3) emptyWorld).2 = 0 ∧
  map success (run_results demoEnv (demoConfig 2 3)) = [true; true; false].
Proof. vm_compute. split; reflexivity. Qed.

(** ** What a run leaves of the tables *)

Lemma main_tables (env : RunEnv) (config : Config) (w : World) :
  ∃ t rows gens news,
    (t = processed_items (db w) ∨ t = run_cleaned env config w ∨
     t = insertAll (map (λ item, processedRow env (toProcessedInput item))
                      (run_sortedItems env config w))
           (run_cleaned env config w)) ∧
    rows `prefix_of` run_feedStatsRows env config w ∧
    (gens = [] ∨ gens = [generationRow env (run_stats env config w)]) ∧
    (news = [] ∨ news = [run_newsletter env config w]) ∧
    (main env config w).1
    = {| db := {| processed_items := t;
                  feed_stats := feed_stats (db w) ++ rows;
                  generation_history := generation_history (db w) ++ gens |};
         output := output w ++ news |}.
Proof.
  destruct (main_cases env config w)
    as [(msg & Hf & ->)
       |(Hclean & [(Hstats & rows & Hrows & ->)
                  |(Hstats & [(msg & Hrender & ->)
                             |(Hrender & [(Hmarks & ->)
                                         |(Hmarks & [(msg & Hgen & ->)
                                                    |(Hgen & ->)])])])])];
    cbn [fst].
  - exists (processed_items (db w)), [], [], [].
    split; [by left|]. split; [apply prefix_nil|]. split; [by left|]. split; [by left|].
    destruct w as [[] ?]. simpl. by rewrite !app_nil_r.
  - exists (run_cleaned env config w), rows, [], [].
    split; [right; by left|]. split; [done|]. split; [by left|]. split; [by left|].
    unfold addFeedStats, setProcessed. simpl. by rewrite !app_nil_r.
  - exists (run_cleaned env config w), (run_feedStatsRows env config w), [], [].
    split; [right; by left|]. split; [done|]. split; [by left|]. split; [by left|].
    unfold run_afterStats, addFeedStats, setProcessed. simpl. by rewrite !app_nil_r.
  - exists (run_cleaned env config w), (run_feedStatsRows env config w), [],
      [run_newsletter env config w].
    split; [right; by left|]. split; [done|]. split; [by left|]. split; [by right|].
    unfold run_afterRender, run_afterStats, addFeedStats, setProcessed. simpl.
    by rewrite !app_nil_r.
  - eexists _, (run_feedStatsRows env config w), [], [run_newsletter env config w].
    split; [right; by right|]. split; [done|]. split; [by left|]. split; [by right|].
    unfold run_beforeGeneration. simpl. by rewrite !app_nil_r.
  - eexists _, (run_feedStatsRows env config w), [generationRow env (run_stats env config w)],
      [run_newsletter env config w].
    split; [right; by right|]. split; [done|]. split; [by right|]. split; [by right|].
    done.
Qed.

Lemma NoDup_urls_filter (P : ProcessedRow → Prop) `{∀ r, Decision (P r)}
    (t : list ProcessedRow) :
  NoDup (map row_url t) → NoDup (map row_url (filter P t)).
Proof.
  induction t as [|r t IH]; simpl; intros Hnd; [done|].
  apply NoDup_cons in Hnd as [Hr Hnd]. rewrite filter_cons.
  destruct (decide (P r)); [|by apply IH].
  simpl. apply NoDup_cons. split; [|by apply IH].
  intros Hin. apply Hr.
  apply list_elem_of_fmap in Hin as (r' & -> & Hr').
  apply list_elem_of_filter in Hr' as [_ Hr'].
  by apply (list_elem_of_fmap_2 row_url).
Qed.

(** X7. The seen table keeps at most one row per URL through a whole run,
    whichever writes fail; and a row that is in the table after the run
    was there before it or is the row of an item that the run published. *)
Theorem main_keeps_keys_unique (env : RunEnv) (config : Config) (w : World) :
  NoDup (map row_url (processed_items (db w))) →
  NoDup (map row_url (processed_items (db (main env config w).1))) ∧
  ∀ row, row ∈ processed_items (db (main env config w).1) →
         row ∈ processed_items (db w) ∨
         ∃ item, item ∈ run_sortedItems env config w ∧
                 row = processedRow env (toProcessedInput item).
Proof.
  intros Hnd.
  assert (NoDup (map row_url (run_cleaned env config w))) as Hclean.
  { unfold run_cleaned, delete_older. cbn [fst]. by apply NoDup_urls_filter. }
  assert (∀ row, row ∈ run_cleaned env config w → row ∈ processed_items (db w))
    as Hsub.
  { intros row. unfold run_cleaned. apply delete_older_subset. }
  destruct (main_tables env config w)
    as (t & rows & gens & news & [->|[->| ->]] & _ & _ & _ & ->);
    cbn [db processed_items].
  - split; [done|]. intros row Hrow. by left.
  - split; [done|]. intros row Hrow. left. by apply Hsub.
  - split; [by apply insertAll_NoDup|].
    intros row Hrow. apply insertAll_elem in Hrow as [Hrow|Hrow].
    + left. by apply Hsub.
    + right. apply list_elem_of_fmap in Hrow as (item & -> & Hitem). eauto.
Qed.

Lemma main_keeps_keys_unique_witness :
  NoDup (map row_url
           (processed_items (db (main tuesdayFailEnv (demoConfig 2 3) emptyWorld).1))).
Proof.
  apply (main_keeps_keys_unique tuesdayFailEnv (demoConfig 2 3) emptyWorld).
  constructor.
Defined.


(** ** Failed rendering, failed recording *)







(* ===================================================================== *)
(** * Further properties of the selection *)

Lemma sortAndLimit_le (newItems : list FeedItem) (cap : Z) :
  count (sortAndLimit newItems cap) ≤ count newItems.
Proof.
  unfold sortAndLimit, count.
  pose proof (prefix_length _ _ (slice_prefix (sortByDate newItems) cap)) as Hle.
  rewrite sort_length in Hle. lia.
Qed.


(** ** The statistics of a run *)

Section stats_facts.
Variables (env : RunEnv) (config : Config).

Lemma run_fetched_spec :
  ∃ rs,
    Forall2 (λ cfg r, fetchFeed (fetcher env) cfg = inr r)
      (filter (λ f, enabled f = true) (feeds config)) rs ∧
    run_results env config = map sortInPlace rs ∧
    run_allItems env config
    = concat (map (λ r, contribution r (maxItemsPerFeed (newsletter config))) rs).
Proof.
  destruct (fetchLoop_spec (fetcher env)
              (filter (λ f, enabled f = true) (feeds config))
              (maxItemsPerFeed (newsletter config))) as (rs & Hrs & Hloop).
  exists rs. split; [done|].
  unfold run_results, run_allItems, run_fetched, fetchAllFeeds. by rewrite Hloop.
Qed.

Lemma sortInPlace_name r : r_feedName (sortInPlace r) = r_feedName r.
Proof. unfold sortInPlace. by destruct (success r). Qed.


Lemma sortInPlace_count r : count (items (sortInPlace r)) = count (items r).
Proof.
  unfold sortInPlace, count. destruct (success r); [|done].
  simpl. by rewrite sort_length.
Qed.
End stats_facts.

(** X12. The statistics that a run hands to the generator and to the history
    are consistent: the feeds counted are the enabled ones, each counted
    once as successful or failed; the duplicates are the candidates with a
    seen URL; and the reported new items, the duplicates and the items cut
    by the total cap never add up to more than the candidates. *)
Theorem run_stats_consistent (env : RunEnv) (config : Config) (w : World) :
  totalFeeds (run_stats env config w)
  = count (filter (λ f, enabled f = true) (feeds config)) ∧
  totalFeeds (run_stats env config w)
  = successfulFeeds (run_stats env config w) + failedFeeds (run_stats env config w) ∧
  duplicatesRemoved (run_stats env config w)
  = count (filter (λ item, link item ∈ run_processedUrls env config w)
             (run_allItems env config)) ∧
  0 ≤ newItems (run_stats env config w) ∧
  newItems (run_stats env config w) + duplicatesRemoved (run_stats env config w)
  ≤ count (run_allItems env config) ∧
  newItems (run_stats env config w) = count (run_sortedItems env config w).
Proof.
  unfold run_stats, makeStats.
  cbn [totalFeeds successfulFeeds failedFeeds newItems duplicatesRemoved].
  destruct (run_fetched_spec env config) as (rs & Hrs & Hres & _).
  split.
  { rewrite Hres. unfold count. rewrite length_map.
    by rewrite (Forall2_length _ _ _ Hrs). }
  split.
  { apply (count_filter_split (λ r, success r = true)). }
  pose proof (count_filter_split (λ item, link item ∈ run_processedUrls env config w)
                (run_allItems env config)) as Hsplit. cbv beta in Hsplit.
  fold (dedup (run_processedUrls env config w) (run_allItems env config)) in Hsplit.
  fold (run_newItems env config w) in Hsplit.
  pose proof (sortAndLimit_le (run_newItems env config w)
                (maxTotalItems (newsletter config))) as Hle.
  fold (run_sortedItems env config w) in Hle.
  pose proof (count_nonneg (run_sortedItems env config w)).
  split; [lia|]. split; [done|]. split; [lia | done].
Qed.

Example run_stats_sample :
  run_stats demoEnv (demoConfig 2 1) emptyWorld
  = {| totalFeeds := 3; successfulFeeds := 2; failedFeeds := 1; newItems := 1;
       duplicatesRemoved := 0; generatedAt := 10 * msPerDay |}.
Proof. reflexivity. Qed.

(** ** The per-feed counts of new items *)

Section per_feed_stats.
Implicit Types (n : string) (names : list string) (l : list FeedItem).

Lemma sum_names_skip names l (x : FeedItem) :
  feedName x ∉ names →
  foldr Z.add 0 (map (λ n, count (filter (λ i, feedName i = n) (x :: l))) names)
  = foldr Z.add 0 (map (λ n, count (filter (λ i, feedName i = n) l)) names).
Proof.
  induction names as [|n names IH]; intros Hx; [done|].
  apply not_elem_of_cons in Hx as [Hne Hx]. simpl.
  rewrite filter_cons, decide_False by done. by rewrite IH.
Qed.

Lemma sum_names_cons names l (x : FeedItem) :
  NoDup names → feedName x ∈ names →
  foldr Z.add 0 (map (λ n, count (filter (λ i, feedName i = n) (x :: l))) names)
  = 1 + foldr Z.add 0 (map (λ n, count (filter (λ i, feedName i = n) l)) names).
Proof.
  induction names as [|n names IH]; intros Hnd Hx.
  { by apply elem_of_nil in Hx. }
  apply NoDup_cons in Hnd as [Hn Hnd]. simpl. rewrite filter_cons.
  destruct (decide (feedName x = n)) as [Heq|Hne].
  - rewrite sum_names_skip by (by rewrite Heq).
    unfold count. simpl length. lia.
  - apply elem_of_cons in Hx as [?|Hx]; [done|].
    rewrite IH by done. lia.
Qed.

(** Counted feed by feed over distinct names that cover them, the items
    add up to their number. *)
Lemma sum_by_name names l :
  NoDup names → Forall (λ i, feedName i ∈ names) l →
  foldr Z.add 0 (map (λ n, count (filter (λ i, feedName i = n) l)) names) = count l.
Proof.
  intros Hnd. induction 1 as [|x l Hx _ IH].
  - induction names as [|n names IHn]; [done|].
    apply NoDup_cons in Hnd as [_ Hnd]. simpl. by rewrite IHn.
  - rewrite sum_names_cons, IH by done. unfold count. simpl length. lia.
Qed.

Lemma count_filter_of_filter_le (P Q : FeedItem → Prop)
    `{∀ x, Decision (P x)} `{∀ x, Decision (Q x)} l :
  count (filter P (filter Q l)) ≤ count (filter P l).
Proof.
  rewrite list_filter_filter. unfold count.
  induction l as [|x l IH]; [done|]. rewrite !filter_cons.
  destruct (decide (P x)), (decide (P x ∧ Q x)); simpl length; try lia. tauto.
Qed.

Lemma count_filter_perm (P : FeedItem → Prop) `{∀ x, Decision (P x)} l1 l2 :
  l1 ≡ₚ l2 → count (filter P l1) = count (filter P l2).
Proof. intros Hp. unfold count. by rewrite Hp. Qed.
End per_feed_stats.

Section per_feed_stats_run.
Variables (env : RunEnv) (config : Config) (w : World).

Lemma contribution_names (fenv : FetcherEnv) cfg r k :
  fetchFeed fenv cfg = inr r →
  Forall (λ i, feedName i = r_feedName r) (contribution r k) ∧
  count (contribution r k) ≤ count (items r).
Proof.
  intros Hr. rewrite (contribution_eq _ cfg r k Hr).
  destruct (fetchFeed_shape _ cfg r Hr) as (Hn & Hits & _).
  pose proof (slice_prefix (sortByDate (items r)) k) as Hpre. split.
  - rewrite Hn. apply Forall_forall. intros i Hi.
    eapply (proj1 (Forall_forall _ _) Hits).
    rewrite <- (sort_perm (items r)). by eapply elem_of_prefix.
  - apply prefix_length in Hpre. rewrite sort_length in Hpre. unfold count. lia.
Qed.

(** Among the candidates, the items that carry the name of a result are
    the contribution of that result, when the names are distinct. *)
Lemma candidates_of_name rs k r :
  Forall (λ r, Forall (λ i, feedName i = r_feedName r) (contribution r k)) rs →
  NoDup (map r_feedName rs) → r ∈ rs →
  filter (λ i, feedName i = r_feedName r) (concat (map (λ r, contribution r k) rs))
  = contribution r k.
Proof.
  induction 1 as [|r' rs Hr' Hrs IH]; intros Hnd Hin.
  { by apply elem_of_nil in Hin. }
  simpl in Hnd. apply NoDup_cons in Hnd as [Hnotin Hnd]. simpl.
  rewrite filter_app.
  assert (∀ n, n ∉ map r_feedName rs →
               filter (λ i, feedName i = n) (concat (map (λ r, contribution r k) rs)) = [])
    as Hnone.
  { clear -Hrs. intros n. induction Hrs as [|r0 rs Hr0 _ IH0]; intros Hn; [done|].
    simpl in *. apply not_elem_of_cons in Hn as [Hne Hn].
    rewrite filter_app, (IH0 Hn).
    by rewrite (filter_none_of_name n _ (r_feedName r0)). }
  apply elem_of_cons in Hin as [->|Hin].
  - rewrite (Hnone _ Hnotin), app_nil_r. by apply filter_all, Forall_forall.
  - rewrite (filter_none_of_name (r_feedName r) _ (r_feedName r')); [by apply IH|done|].
    intros Heq. apply Hnotin. rewrite Heq. by apply (list_elem_of_fmap_2 r_feedName).
Qed.
End per_feed_stats_run.

(** X13. When the enabled feeds have distinct names, the feed statistics of a
    run carry one row per enabled feed, in order; the [items_new] of a feed
    is at most its [items_fetched]; and the [items_new] of the feeds add up
    to the number of new items before the total cap, whatever the caps. *)
Theorem per_feed_new_counts (env : RunEnv) (config : Config) (w : World) :
  NoDup (map name (filter (λ f, enabled f = true) (feeds config))) →
  map fs_feed_name (run_feedStatsRows env config w)
  = map name (filter (λ f, enabled f = true) (feeds config)) ∧
  Forall (λ row, 0 ≤ items_new row ≤ items_fetched row)
    (run_feedStatsRows env config w) ∧
  foldr Z.add 0 (map items_new (run_feedStatsRows env config w))
  = count (run_newItems env config w).
Proof.
  intros Hnd.
  destruct (run_fetched_spec env config) as (rs & Hrs & Hres & Hall).
  pose proof (fetched_names _ _ _ Hrs) as Hnames. rewrite <- Hnames in Hnd.
  set (k := maxItemsPerFeed (newsletter config)) in *.
  set (new := run_newItems env config w).
  assert (Forall (λ r, Forall (λ i, feedName i = r_feedName r) (contribution r k) ∧
                       count (contribution r k) ≤ count (items r)) rs) as Hcontrib.
  { clear -Hrs. induction Hrs as [|cfg r fs rs Hr _ IH]; constructor; [|done].
    by eapply contribution_names. }
  assert (Forall (λ r, Forall (λ i, feedName i = r_feedName r) (contribution r k)) rs)
    as Hcontrib1.
  { eapply Forall_impl; [exact Hcontrib|]. by intros r [? _]. }
  assert (map items_new (run_feedStatsRows env config w)
          = map (λ n, count (filter (λ i, feedName i = n) new)) (map r_feedName rs))
    as Hnew.
  { unfold run_feedStatsRows. rewrite Hres, !map_map. apply map_ext. intros r.
    cbn [items_new feedStatsRow]. rewrite sortInPlace_name.
    apply count_filter_perm, sort_perm. }
  split.
  { unfold run_feedStatsRows. rewrite Hres, !map_map, <- Hnames.
    apply map_ext. intros r. cbn. apply sortInPlace_name. }
  split.
  { unfold run_feedStatsRows. rewrite Hres, map_map. apply Forall_forall.
    intros row Hrow. apply list_elem_of_fmap in Hrow as (r & -> & Hr).
    cbn [items_new items_fetched feedStatsRow].
    rewrite sortInPlace_name, sortInPlace_count.
    rewrite (count_filter_perm _ _ _ (sort_perm (run_newItems env config w))).
    split; [apply count_nonneg|].
    unfold run_newItems, dedup.
    etrans; [apply count_filter_of_filter_le|].
    rewrite Hall. rewrite (candidates_of_name rs k r Hcontrib1 Hnd Hr).
    by apply (proj1 (Forall_forall _ _) Hcontrib r Hr). }
  rewrite Hnew. apply sum_by_name; [done|].
  apply Forall_forall. intros i Hi.
  assert (i ∈ run_allItems env config) as Hin.
  { unfold new, run_newItems, dedup in Hi. by apply list_elem_of_filter in Hi as [_ ?]. }
  rewrite Hall in Hin. apply list_elem_of_In, in_concat in Hin as (c & Hc & Hic).
  apply list_elem_of_In in Hc, Hic.
  apply list_elem_of_fmap in Hc as (r & -> & Hr).
  pose proof (proj1 (Forall_forall _ _) Hcontrib1 r Hr) as Hnm.
  rewrite (proj1 (Forall_forall _ _) Hnm i Hic).
  by apply (list_elem_of_fmap_2 r_feedName).
Qed.

Lemma per_feed_new_counts_witness :
  foldr Z.add 0 (map items_new (run_feedStatsRows demoEnv (demoConfig 2 1) emptyWorld))
  = count (run_newItems demoEnv (demoConfig 2 1) emptyWorld).
Proof.
  apply (per_feed_new_counts demoEnv (demoConfig 2 1) emptyWorld).
  apply (bool_decide_unpack
           (NoDup (map name (filter (λ f, enabled f = true)
                               (feeds (demoConfig 2 1)))))).
  vm_compute. exact I.
Defined.

(* ===================================================================== *)
(** * Further properties of the fetcher *)

Section fetch_items_facts.
Variable env : FetcherEnv.

Lemma omap_length_le {A B} (f : A → option B) (l : list A) :
  (length (omap f l) ≤ length l)%nat.
Proof.
  induction l as [|x l IH]; [done|].
  change (omap f (x :: l))
    with (match f x with Some y => y :: omap f l | None => omap f l end).
  destruct (f x); simpl length; lia.
Qed.

Lemma truthy_nonempty (o : option string) (s : string) :
  truthy o = Some s → s ≠ EmptyString ∧ o = Some s.
Proof.
  unfold truthy. destruct o as [s'|]; [|done].
  case_decide; [done|]. by intros [= ->].
Qed.

Lemma convertItem_spec cfg feed item o :
  convertItem env cfg feed item = inr o →
  match o with
  | Some fi =>
      truthy (p_link item) = Some (link fi) ∧
      link fi ≠ EmptyString ∧ title fi ≠ EmptyString ∧
      feedName fi = name cfg ∧ category fi = cfg_category cfg
  | None => truthy (p_link item) = None
  end.
Proof.
  unfold convertItem. destruct (truthy (p_link item)) as [l|] eqn:Hl.
  - intros H.
    apply Exc_bind_inr in H as (i & _ & H).
    apply Exc_bind_inr in H as (d & _ & H).
    injection H as <-. cbn.
    apply truthy_nonempty in Hl as [Hl _].
    split_and!; try done.
    destruct (truthy (p_title item)) as [t|] eqn:Ht; [|done].
    by apply truthy_nonempty in Ht as [? _].
  - by intros [= <-].
Qed.

Lemma convertItems_spec cfg feed l its :
  convertItems env cfg feed l = inr its →
  Forall (λ fi, link fi ≠ EmptyString ∧ title fi ≠ EmptyString ∧
                feedName fi = name cfg ∧ category fi = cfg_category cfg) its ∧
  map link its = omap (λ item, truthy (p_link item)) l.
Proof.
  revert its. induction l as [|item l IH]; simpl; intros its H.
  { by injection H as <-. }
  apply Exc_bind_inr in H as (o & Ho & H).
  apply Exc_bind_inr in H as (rest & Hrest & H).
  injection H as <-. destruct (IH _ Hrest) as [Hall Hlinks].
  apply convertItem_spec in Ho. destruct o as [fi|].
  - destruct Ho as (Hl & ? & ? & ? & ?). rewrite Hl. simpl.
    split; [by constructor | by rewrite Hlinks].
  - rewrite Ho. done.
Qed.
End fetch_items_facts.

(** X14. The items of a fetched feed are well formed: each has a link and a
    title that are not empty, and carries the name and the category of the
    configured feed; and when the fetch succeeds their links are the
    links of the entries of the parsed feed that have one, in the order of
    the feed: an entry without a link is dropped, nothing else is. *)
Theorem fetchFeed_items_wellformed (env : FetcherEnv) (cfg : FeedConfig) :
  ∃ r,
    fetchFeed env cfg = inr r ∧
    Forall (λ fi, link fi ≠ EmptyString ∧ title fi ≠ EmptyString ∧
                  feedName fi = name cfg ∧ category fi = cfg_category cfg)
      (items r) ∧
    (success r = true →
     ∃ feed,
       parseURL env (url cfg) = inr feed ∧
       map link (items r) = omap (λ item, truthy (p_link item)) (feed_items feed) ∧
       count (items r) ≤ count (feed_items feed)).
Proof.
  destruct (fetchFeed_cases env cfg)
    as [(feed & its & Hp & Hc & ->)|(e & He & ->)];
    eexists; (split; [reflexivity|]); cbn [items success].
  - destruct (convertItems_spec env cfg feed _ _ Hc) as [Hall Hlinks].
    split; [done|]. intros _. exists feed. split; [done|]. split; [done|].
    unfold count. rewrite <- (length_map link), Hlinks.
    pose proof (omap_length_le (λ item, truthy (p_link item)) (feed_items feed)). lia.
  - split; [constructor | done].
Qed.

Example fetchFeed_drops_linkless :
  let env :=
    {| parseURL := λ _, inr {| feed_items :=
                                 [entry "https://a.example/1" "Mon";
                                  {| p_guid := Some "g"; p_link := None;
                                     p_title := Some "No link"; p_pubDate := None;
                                     p_contentSnippet := None; p_content := None;
                                     p_summary := None; p_creator := None;
                                     p_author := None |};
                                  {| p_guid := None; p_link := Some "https://a.example/3";
                                     p_title := None; p_pubDate := None;
                                     p_contentSnippet := None; p_content := None;
                                     p_summary := None; p_creator := None;
                                     p_author := None |}];
                               feed_title := None |};
       md5 := λ s, inr s; sanitizeHtml := λ o, inr (default EmptyString o);
       parseDate := day; fetch_now := 5 |} in
  (fetchFeed env feedA ≫= λ r, mret (map (λ fi, (link fi, title fi, pubDate fi)) (items r)))
  = inr [("https://a.example/1", "Mon", 1 * msPerDay);
         ("https://a.example/3", "Untitled", 5)].
Proof. reflexivity. Qed.


(* ===================================================================== *)
(** * Further properties of the generator *)

(** ** Grouping by category *)

Section group_facts.
Implicit Types (m : CategoryMap) (x : FeedItem) (c k : string) (l : list string).

Lemma firstOccurrences_elem k l : k ∈ firstOccurrences l ↔ k ∈ l.
Proof.
  induction l as [|a l IH]; simpl; [done|].
  rewrite !elem_of_cons, list_elem_of_filter, IH.
  destruct (decide (k = a)); tauto.
Qed.

Lemma firstOccurrences_NoDup l : NoDup (firstOccurrences l).
Proof.
  induction l as [|a l IH]; simpl; [constructor|].
  apply NoDup_cons. split; [|by apply NoDup_filter].
  rewrite list_elem_of_filter. tauto.
Qed.

Lemma firstOccurrences_snoc l k :
  firstOccurrences (l ++ [k])
  = if decide (k ∈ l) then firstOccurrences l else firstOccurrences l ++ [k].
Proof.
  induction l as [|a l IH].
  { destruct (decide (k ∈ [])) as [H|_]; [by apply elem_of_nil in H | done]. }
  cbn [app firstOccurrences].
  rewrite IH. destruct (decide (k ∈ l)) as [Hin|Hnotin].
  - rewrite decide_True by (by right). done.
  - rewrite filter_app, filter_cons, filter_nil.
    destruct (decide (k = a)) as [Heq|Hne].
    + rewrite (decide_False (P := k ≠ a)) by tauto.
      rewrite (decide_True (P := k ∈ a :: l)) by (rewrite Heq; by left).
      by rewrite app_nil_r.
    + rewrite (decide_True (P := k ≠ a)) by done.
      rewrite (decide_False (P := k ∈ a :: l)); [done|].
      rewrite elem_of_cons. tauto.
Qed.

(** One turn of the loop on a map that holds a function of its keys. *)
Lemma groupStep_present (f : string → list FeedItem) l x :
  NoDup l → categoryOf x ∈ l →
  groupStep (map (λ c, (c, f c)) l) x
  = map (λ c, (c, if decide (c = categoryOf x) then f c ++ [x] else f c)) l.
Proof.
  intros Hnd Hin. unfold groupStep.
  assert (mapHas (categoryOf x) (map (λ c, (c, f c)) l) = true) as ->.
  { clear Hnd. induction l as [|a l IH]; [by apply elem_of_nil in Hin|].
    simpl. case_decide; [done|].
    apply elem_of_cons in Hin as [?|Hin]; [congruence | by apply IH]. }
  induction l as [|a l IH]; [by apply elem_of_nil in Hin|].
  apply NoDup_cons in Hnd as [Ha Hnd]. simpl.
  destruct (decide (a = categoryOf x)) as [->|Hne].
  - simpl. f_equal.
    apply map_ext_in. intros c Hc. apply list_elem_of_In in Hc.
    rewrite decide_False; [done|]. by intros ->.
  - apply elem_of_cons in Hin as [?|Hin]; [congruence|].
    simpl. rewrite ?decide_False by done. f_equal. by apply IH.
Qed.

Lemma mapSet_absent c v m :
  mapHas c m = false → mapSet c v m = m ++ [(c, v)].
Proof.
  induction m as [|[a u] m IH]; simpl; [done|].
  case_decide; [done|]. intros Hm. f_equal. by apply IH.
Qed.

Lemma mapGet_last c v m :
  mapHas c m = false → mapGet c (m ++ [(c, v)]) = Some v.
Proof.
  induction m as [|[a u] m IH]; simpl.
  - by rewrite decide_True.
  - case_decide; [done | by apply IH].
Qed.

Lemma mapSet_last c v v' m :
  mapHas c m = false → mapSet c v' (m ++ [(c, v)]) = m ++ [(c, v')].
Proof.
  induction m as [|[a u] m IH]; simpl.
  - by rewrite decide_True.
  - case_decide; [done|]. intros Hm. f_equal. by apply IH.
Qed.

Lemma mapHas_keys (f : string → list FeedItem) l c :
  mapHas c (map (λ c, (c, f c)) l) = bool_decide (c ∈ l).
Proof.
  induction l as [|a l IH]; simpl; [done|].
  destruct (decide (a = c)) as [Ha|Ha].
  - symmetry. apply bool_decide_eq_true. rewrite Ha. by left.
  - rewrite IH. apply bool_decide_ext. rewrite elem_of_cons.
    split; [tauto|]. intros [?|?]; [congruence | done].
Qed.

Lemma groupStep_absent (f : string → list FeedItem) l x :
  categoryOf x ∉ l →
  groupStep (map (λ c, (c, f c)) l) x
  = map (λ c, (c, f c)) l ++ [(categoryOf x, [x])].
Proof.
  intros Hnotin. unfold groupStep.
  assert (mapHas (categoryOf x) (map (λ c, (c, f c)) l) = false) as Hhas.
  { rewrite mapHas_keys. by apply bool_decide_eq_false. }
  rewrite Hhas, (mapSet_absent _ _ _ Hhas), (mapGet_last _ _ _ Hhas).
  by rewrite (mapSet_last _ _ _ _ Hhas).
Qed.

Lemma groupByCategory_snoc items x :
  groupByCategory (items ++ [x]) = groupStep (groupByCategory items) x.
Proof. unfold groupByCategory. by rewrite foldl_app. Qed.

(** The map that [groupByCategory] returns, in full. *)
Lemma groupByCategory_eq items :
  groupByCategory items
  = map (λ c, (c, filter (λ i, categoryOf i = c) items))
      (firstOccurrences (map categoryOf items)).
Proof.
  induction items as [|x items IH] using rev_ind; [done|].
  rewrite groupByCategory_snoc, IH, map_app. simpl.
  rewrite firstOccurrences_snoc.
  destruct (decide (categoryOf x ∈ map categoryOf items)) as [Hin|Hnotin].
  - rewrite groupStep_present;
      [|apply firstOccurrences_NoDup | by apply firstOccurrences_elem].
    apply map_ext. intros c. f_equal.
    rewrite filter_app, filter_cons, filter_nil.
    destruct (decide (c = categoryOf x)) as [->|Hne].
    + by rewrite decide_True.
    + rewrite decide_False by done. by rewrite app_nil_r.
  - rewrite groupStep_absent by (by rewrite firstOccurrences_elem).
    rewrite map_app. simpl. f_equal.
    + apply map_ext_in. intros c Hc. f_equal.
      rewrite filter_app, filter_cons, filter_nil.
      rewrite decide_False; [by rewrite app_nil_r|].
      intros Heq. apply Hnotin. rewrite Heq.
      by apply firstOccurrences_elem, list_elem_of_In.
    + f_equal. f_equal. rewrite filter_app, filter_cons, filter_nil.
      rewrite decide_True by done.
      rewrite (filter_none _ items); [done|].
      intros i Hi Heq. apply Hnotin. rewrite <- Heq.
      by apply (list_elem_of_fmap_2 categoryOf).
Qed.

Lemma mapSet_concat c m :
  mapHas c m = true →
  ∃ v0, mapGet c m = Some v0 ∧
        ∀ x, concat (map snd (mapSet c (v0 ++ [x]) m)) ≡ₚ x :: concat (map snd m).
Proof.
  induction m as [|[a u] m IH]; simpl; [done|].
  case_decide.
  - intros _. exists u. split; [done|]. intros x. simpl.
    rewrite <- app_assoc. simpl. by rewrite <- Permutation_middle.
  - intros Hm. destruct (IH Hm) as (v0 & Hget & Hperm).
    exists v0. split; [done|]. intros x. simpl. rewrite Hperm.
    by rewrite <- Permutation_middle.
Qed.

Lemma groupStep_concat m x :
  concat (map snd (groupStep m x)) ≡ₚ x :: concat (map snd m).
Proof.
  unfold groupStep. destruct (mapHas (categoryOf x) m) eqn:Hhas.
  - destruct (mapSet_concat (categoryOf x) m Hhas) as (v0 & -> & Hperm).
    apply Hperm.
  - rewrite (mapSet_absent _ _ _ Hhas), (mapGet_last _ _ _ Hhas).
    rewrite (mapSet_last _ _ _ _ Hhas). cbn [default from_option app].
    rewrite map_app, concat_app. simpl.
    by rewrite <- Permutation_middle, app_nil_r.
Qed.
End group_facts.

(** X16. [groupByCategory] sorts the items into groups without losing or
    repeating one: the categories of the map are those of the items, each
    once, in the order in which they first occur; the group of a category
    holds the items of that category, in their order, and is never empty;
    and all groups together hold exactly the items. An item without a
    category is filed under [Uncategorized]. *)
Theorem groupByCategory_partition (items : list FeedItem) :
  map fst (groupByCategory items) = firstOccurrences (map categoryOf items) ∧
  NoDup (map fst (groupByCategory items)) ∧
  Forall (λ g, g.2 = filter (λ i, categoryOf i = g.1) items ∧ g.2 ≠ [])
    (groupByCategory items) ∧
  concat (map snd (groupByCategory items)) ≡ₚ items ∧
  (∀ i, i ∈ items → category i = EmptyString → categoryOf i = "Uncategorized").
Proof.
  assert (map fst (groupByCategory items) = firstOccurrences (map categoryOf items))
    as Hkeys.
  { rewrite groupByCategory_eq, map_map. simpl. apply map_id. }
  split; [done|]. split; [rewrite Hkeys; apply firstOccurrences_NoDup|]. split.
  { rewrite groupByCategory_eq. apply Forall_forall. intros g Hg.
    apply list_elem_of_fmap in Hg as (c & -> & Hc). simpl. split; [done|].
    apply firstOccurrences_elem, list_elem_of_fmap in Hc as (i & -> & Hi).
    intros Hnil.
    assert (i ∈ filter (λ i0, categoryOf i0 = categoryOf i) items) as Hin
      by by apply list_elem_of_filter.
    rewrite Hnil in Hin. by apply elem_of_nil in Hin. }
  split.
  { induction items as [|x items IH] using rev_ind; [done|].
    rewrite groupByCategory_snoc, groupStep_concat, IH.
    - by rewrite <- Permutation_cons_append.
    - rewrite groupByCategory_eq, map_map. simpl. apply map_id. }
  intros i _ Hcat. unfold categoryOf. by rewrite Hcat.
Qed.

Example groupByCategory_sample :
  let a := article "A" "https://a.example/1" "Wed" in
  let b := {| item_id := "2"; title := "t"; link := "https://b.example/2";
              description := EmptyString; pubDate := day "Tue"; feedName := "B";
              category := EmptyString; author := None |} in
  let c' := article "A" "https://a.example/3" "Mon" in
  groupByCategory [a; b; c'] = [("News", [a; c']); ("Uncategorized", [b])].
Proof. reflexivity. Qed.

(** ** The sections of the newsletter *)



Example categorySections_sample :
  categorySections [mon; sun; wed] = [("News", [wed; mon; sun])] ∧
  categorySections (sortAndLimit [mon; sun; wed] 2) = [("News", [wed; mon])].
Proof. split; reflexivity. Qed.

(** ** The age of an item *)

Lemma div_div_pos (a b c : Z) : 0 < b → 0 < c → a / b / c = a / (b * c).
Proof. intros Hb Hc. apply Z.div_div; lia. Qed.

Lemma div_lt_iff (a b q : Z) : 0 < b → a / b < q ↔ a < b * q.
Proof.
  intros Hb. split.
  - intros Hlt. destruct (Z.lt_ge_cases a (b * q)) as [|Hge]; [done|].
    apply (Z.div_le_lower_bound a b q Hb) in Hge. lia.
  - by apply Z.div_lt_upper_bound.
Qed.

(** X18. [getTimeAgo] by the age [now - date] in milliseconds: under an hour
    (also for a date in the future, where the number is negative) the age
    in whole minutes; from one hour to a day, in whole hours; from one day
    to two, [Yesterday]; from two days to seven, in whole days; from seven
    days on, the date as the platform formats it. The minutes, hours and
    days are rounded down. *)
Theorem getTimeAgo_ranges (toLocaleDateString : Z → string) (now date : Z) :
  (now - date < 3600000 →
   getTimeAgo toLocaleDateString now date
   = showInt ((now - date) / 60000) +:+ "m ago") ∧
  (3600000 ≤ now - date < 86400000 →
   getTimeAgo toLocaleDateString now date
   = showInt ((now - date) / 3600000) +:+ "h ago") ∧
  (86400000 ≤ now - date < 172800000 →
   getTimeAgo toLocaleDateString now date = "Yesterday") ∧
  (172800000 ≤ now - date < 604800000 →
   getTimeAgo toLocaleDateString now date
   = showInt ((now - date) / 86400000) +:+ "d ago") ∧
  (604800000 ≤ now - date →
   getTimeAgo toLocaleDateString now date = toLocaleDateString date).
Proof.
  unfold getTimeAgo. set (d := now - date).
  rewrite !div_div_pos by lia.
  change (60000 * 60) with 3600000. change (3600000 * 24) with 86400000.
  pose proof (div_lt_iff d 60000 60) as Hmin.
  pose proof (div_lt_iff d 3600000 24) as Hhour.
  pose proof (div_lt_iff d 86400000 1) as Hday1.
  pose proof (div_lt_iff d 86400000 2) as Hday2.
  pose proof (div_lt_iff d 86400000 7) as Hday7.
  split_and!; intros Hd.
  - destruct (Z.ltb_spec (d / 60000) 60); [done | lia].
  - destruct (Z.ltb_spec (d / 60000) 60); [lia|].
    destruct (Z.ltb_spec (d / 3600000) 24); [done | lia].
  - destruct (Z.ltb_spec (d / 60000) 60); [lia|].
    destruct (Z.ltb_spec (d / 3600000) 24); [lia|].
    destruct (Z.eqb_spec (d / 86400000) 1); [done | lia].
  - destruct (Z.ltb_spec (d / 60000) 60); [lia|].
    destruct (Z.ltb_spec (d / 3600000) 24); [lia|].
    destruct (Z.eqb_spec (d / 86400000) 1); [lia|].
    destruct (Z.ltb_spec (d / 86400000) 7); [done | lia].
  - destruct (Z.ltb_spec (d / 60000) 60); [lia|].
    destruct (Z.ltb_spec (d / 3600000) 24); [lia|].
    destruct (Z.eqb_spec (d / 86400000) 1); [lia|].
    destruct (Z.ltb_spec (d / 86400000) 7); [lia | done].
Qed.

Example getTimeAgo_samples :
  let f := λ _ : Z, "Jan 5"%string in
  getTimeAgo f 10000000 9999999 = "0m ago" ∧
  getTimeAgo f 0 180001 = "-4m ago" ∧
  getTimeAgo f 7199999 0 = "1h ago" ∧
  getTimeAgo f 172799999 0 = "Yesterday" ∧
  getTimeAgo f 172800000 0 = "2d ago" ∧
  getTimeAgo f 604800000 0 = "Jan 5".
Proof. vm_compute. split_and!; reflexivity. Qed.

(** ** Text that needs no escaping *)

Section escape_identity.
Implicit Types (a : ascii) (s : string).

Lemma escapeHtml_cons a s : escapeHtml (String a s) = escapeChar a +:+ escapeHtml s.
Proof.
  change (String a s) with (String a EmptyString +:+ s).
  by rewrite escapeHtml_app, escapeHtml_char.
Qed.

Lemma escapeChar_plain a : a ∉ specialChars → escapeChar a = String a EmptyString.
Proof.
  intros Ha. unfold escapeChar, specialChars in *.
  repeat (case_decide; [subst; exfalso; apply Ha; set_solver|]). done.
Qed.

Lemma escapeChar_special a : a ∈ specialChars → (4 ≤ length (chars (escapeChar a)))%nat.
Proof.
  intros Ha. unfold specialChars in Ha.
  repeat (apply elem_of_cons in Ha as [->|Ha]; [vm_compute; lia|]).
  by apply elem_of_nil in Ha.
Qed.

Lemma escapeChar_length a : (1 ≤ length (chars (escapeChar a)))%nat.
Proof.
  destruct (decide (a ∈ specialChars)) as [Ha|Ha].
  - apply escapeChar_special in Ha. lia.
  - by rewrite escapeChar_plain.
Qed.

(** Escaping never shortens a text. *)
Lemma escapeHtml_length s : (length (chars s) ≤ length (chars (escapeHtml s)))%nat.
Proof.
  induction s as [|a s IH]; [done|].
  rewrite escapeHtml_cons, chars_app, length_app. simpl length.
  pose proof (escapeChar_length a). lia.
Qed.
End escape_identity.

(** X19. [escapeHtml] leaves a text as it is exactly when the text has none of
    the five characters that it replaces (the ampersand, the two angle
    brackets, the double quote and the apostrophe), and it never makes a
    text shorter: a
    text that has one of them grows. *)
Theorem escapeHtml_identity (text : string) :
  (escapeHtml text = text ↔ ∀ c, c ∈ specialChars → c ∉ chars text) ∧
  (length (chars text) ≤ length (chars (escapeHtml text)))%nat.
Proof.
  split; [|apply escapeHtml_length].
  induction text as [|a s IH]; [split; [intros _ c _; apply not_elem_of_nil | done]|].
  rewrite escapeHtml_cons. split.
  - intros Heq.
    assert (length (chars (escapeChar a +:+ escapeHtml s)) = length (chars (String a s)))
      as Hlen by by rewrite Heq.
    rewrite chars_app, length_app in Hlen. simpl length in Hlen.
    pose proof (escapeHtml_length s) as Hs. pose proof (escapeChar_length a) as Ha.
    assert (a ∉ specialChars) as Hplain.
    { intros Hin. apply escapeChar_special in Hin. lia. }
    rewrite (escapeChar_plain a Hplain) in Heq.
    rewrite append_cons, append_nil in Heq. injection Heq as Heq.
    intros c Hc. simpl. rewrite elem_of_cons. intros [->|Hin]; [done|].
    by apply (proj1 IH Heq c Hc).
  - intros Hfree.
    assert (a ∉ specialChars) as Hplain.
    { intros Hin. apply (Hfree a Hin). simpl. by left. }
    rewrite (escapeChar_plain a Hplain), append_cons, append_nil. f_equal.
    apply IH. intros c Hc Hin. apply (Hfree c Hc). simpl. by right.
Qed.

Example escapeHtml_twice :
  escapeHtml "Tom & Jerry" = "Tom &amp; Jerry" ∧
  escapeHtml (escapeHtml "Tom & Jerry") = "Tom &amp;amp; Jerry" ∧
  escapeHtml "plain text, no markup" = "plain text, no markup".
Proof. split_and!; reflexivity. Qed.

(* ===================================================================== *)
(** * Clean-up before dedup *)


(** A row of eleven days of age with a retention of seven days: Wednesday
    is published again. *)
Example eviction_before_dedup_sample :
  let old := {| row_url := "https://a.example/wed"; row_feed_name := "A";
                processed_at := -1 * msPerDay; row_title := Some "Wed" |} in
  let w := {| db := {| processed_items := [old]; feed_stats := [];
                       generation_history := [] |}; output := [] |} in
  let config := {| newsletter := {| nl_title := "T"; nl_description := "D";
                                    nl_author := "E"; maxItemsPerFeed := 2;
                                    maxTotalItems := 3; retentionDays := 7 |};
                   feeds := [feedA]; categories := [] |} in
  run_sortedItems demoEnv config w = [wed; tue] ∧
  map row_url (processed_items (db (main demoEnv config w).1))
  = ["https://a.example/wed"; "https://a.example/tue"] ∧
  map processed_at (processed_items (db (main demoEnv config w).1))
  = [10 * msPerDay; 10 * msPerDay].
Proof. vm_compute. split_and!; reflexivity. Qed.


(** With a negative retention the cutoff lies in the future: the second
    run evicts the rows that the first run has just recorded, and finds
    the same items new again. *)
Example second_main_run_negative_retention :
  let config := {| newsletter := {| nl_title := "T"; nl_description := "D";
                                    nl_author := "E"; maxItemsPerFeed := 2;
                                    maxTotalItems := 3; retentionDays := -1 |};
                   feeds := [feedA; feedB]; categories := [] |} in
  run_newItems demoEnv config emptyWorld = [wed; tue; sun] ∧
  map row_url (processed_items (db (main demoEnv config emptyWorld).1))
  = ["https://a.example/wed"; "https://a.example/tue"; "https://b.example/sun"] ∧
  run_newItems demoEnv config (main demoEnv config emptyWorld).1 = [wed; tue; sun].
Proof. vm_compute. split_and!; reflexivity. Qed.
